(** * QWWAD: quasi-Fermi energies of 2D subbands and the Debye model

    A shallow embedding of [qclsim-fermi.cpp] (namespace [Leeds]: [f_FD],
    [f_FD_ionised], [find_pop], [find_fermi], [find_fermi_global]) and of
    [debye.cpp] (class [QWWAD::DebyeModel]).

    Conventions of the embedding.
    - A C++ [double] is a real number of [R]; [exp], [log], [fabs] and
      [std::cbrt] are the real functions, [gsl_log1p x] is [ln (1 + x)] and
      [gsl_expm1 x] is [exp x - 1].  Rounding, overflow and NaN are outside
      the model.
    - [size_t] is a [Z] in [0, 2^64) and [unsigned int] a [Z] in [0, 2^32),
      with the wrap-around of [-] and [++] written out.
    - A [std::valarray<double>] is a [list R]; a subscript outside
      [0, size) is undefined behaviour, reported as [OutOfBounds].
    - A [throw std::runtime_error] is the outcome [Throw].
    - A loop takes fuel; exhausted fuel is the outcome [OutOfFuel].
    - The physical constants of [qclsim-constants.h] / [constants.h]
      ([kB], [hBar], [e], [Na]) and the GSL routines [gsl_sf_debye_3] and
      [gsl_deriv_forward] are parameters of the development. *)

From Stdlib Require Import Reals Lra Lia ZArith List Bool.
Import ListNotations.

Local Open Scope R_scope.

(** ** Outcomes of a call *)

(** The two [std::runtime_error]s thrown by the sources.  The Debye messages
    print the offending temperature, which the constructor carries. *)
Inductive exn : Type :=
| NoQuasiFermiEnergyInRange            (* "No quasi-Fermi energy in range." *)
| CannotFindInternalEnergy (T : R)     (* "Cannot find internal energy for T = ... K." *)
| CannotFindSpecificHeat (T : R).      (* "Cannot find specific heat capacity for T = ... K." *)

Inductive outcome (A : Type) : Type :=
| Return (a : A)
| Throw (x : exn)
| OutOfBounds
| OutOfFuel.

Arguments Return {A} a.
Arguments Throw {A} x.
Arguments OutOfBounds {A}.
Arguments OutOfFuel {A}.

Definition bind {A B : Type} (c : outcome A) (k : A -> outcome B) : outcome B :=
  match c with
  | Return a => k a
  | Throw x => Throw x
  | OutOfBounds => OutOfBounds
  | OutOfFuel => OutOfFuel
  end.

Notation "x <- c ;; k" := (bind c (fun x => k))
  (at level 61, c at next level, right associativity).

(** The error kinds of the specification, as predicates on outcomes. *)
Definition is_InvalidTemperature {A : Type} (o : outcome A) : Prop :=
  match o with
  | Throw (CannotFindInternalEnergy _) | Throw (CannotFindSpecificHeat _) => True
  | _ => False
  end.

Definition is_NoSolutionInRange {A : Type} (o : outcome A) : Prop :=
  match o with
  | Throw NoQuasiFermiEnergyInRange => True
  | _ => False
  end.

Definition returns {A : Type} (o : outcome A) : Prop :=
  match o with
  | Return _ => True
  | _ => False
  end.

(** ** Machine integers and arrays *)

Definition size_t_max : Z := 2 ^ 64.
Definition uint_max : Z := 2 ^ 32.

(** [a - b] on [size_t]. *)
Definition size_t_sub (a b : Z) : Z := ((a - b) mod size_t_max)%Z.

(** [i++] on [unsigned int]. *)
Definition uint_incr (i : Z) : Z := ((i + 1) mod uint_max)%Z.

Definition valarray : Type := list R.

Definition size (E : valarray) : Z := Z.of_nat (length E).

(** [E[i]]. *)
Definition subscript (E : valarray) (i : Z) : outcome R :=
  if ((0 <=? i) && (i <? size E))%Z
  then Return (nth (Z.to_nat i) E 0)
  else OutOfBounds.

(** ** Library functions *)

Definition pi : R := PI.

(** [GSL_SIGN(x)] is [((x) >= 0 ? 1 : -1)]. *)
Definition GSL_SIGN (x : R) : Z := if Rle_dec 0 x then 1%Z else (-1)%Z.

Definition gsl_log1p (x : R) : R := ln (1 + x).
Definition gsl_expm1 (x : R) : R := exp x - 1.
Definition log (x : R) : R := ln x.
Definition fabs (x : R) : R := Rabs x.

(** [std::cbrt]: the real cube root, odd in its argument. *)
Definition cbrt (x : R) : R :=
  match total_order_T x 0 with
  | inleft (left _) => - Rpower (- x) (/ 3)
  | inleft (right _) => 0
  | inright _ => Rpower x (/ 3)
  end.

(** ** The Debye model's data *)

Record DebyeModel : Type := mkDebyeModel {
  _T_D : R;        (* Debye temperature [K] *)
  _M : R;          (* molar mass [kg/mol] *)
  _natoms : Z      (* atoms per molecular unit, a size_t *)
}.

(** [static_cast<double>] of a [size_t]. *)
Definition to_double (n : Z) : R := IZR n.

(** Values of the constants (CODATA 2018, SI units), used where a closed
    instance of a statement is needed. *)
Definition kB_SI : R := 1.380649e-23.
Definition hBar_SI : R := 1.054571817e-34.
Definition e_SI : R := 1.602176634e-19.
Definition Na_SI : R := 6.02214076e23.

(** Sample instances of the two GSL parameters: D_3 at its value for a
    vanishing argument, and a one-step forward difference. *)
Definition debye_3_unit (x : R) : R := 1.

Definition forward_difference (f : R -> outcome R) (x h : R) : outcome (R * R) :=
  f_x <- f x ;;
  f_xh <- f (x + h) ;;
  Return ((f_xh - f_x) / h, 0).

(** The effective mass of an electron in GaAs [kg]. *)
Definition m_GaAs : R := 0.067 * 9.1093837e-31.

(** An aluminium-like Debye model. *)
Definition aluminium : DebyeModel :=
  {| _T_D := 428; _M := 0.026982; _natoms := 1 |}.



Section QWWAD.

Variables kB hBar e Na : R.

(** The GSL special function D_3 and the forward-difference derivative
    [gsl_deriv_forward(&f, x, h, &result, &abserr)], whose callback may
    throw. *)
Variable gsl_sf_debye_3 : R -> R.
Variable gsl_deriv_forward : (R -> outcome R) -> R -> R -> outcome (R * R).

(** ** namespace Leeds *)

Definition f_FD (E_F E Te : R) : R :=
  1 / (exp ((E - E_F) / (kB * Te)) + 1).

Definition f_FD_ionised (E_F Ed Te : R) : R :=
  1 / (0.5 * exp ((Ed - E_F) / (kB * Te)) + 1).

Definition find_pop (Esb E_F md Te : R) : R :=
  let rho := md / (pi * hBar * hBar) in
  let y := - (Esb - E_F) / (kB * Te) in
  let int_f_FD := kB * Te * gsl_log1p (exp y) in
  rho * int_f_FD.

Definition find_fermi (Esb m N Te : R) : R :=
  let E_F := Esb + kB * Te * log (gsl_expm1 ((N * pi * hBar * hBar) / (m * kB * Te))) in
  E_F.

(** The [for] loop of [find_fermi_global]:
    [for(unsigned int ist = 0; ist < nst; ist++)
       total_population += find_pop(E[ist], E_mid, m, Te);] *)
Fixpoint sum_populations (fuel : nat) (m Te : R) (E : valarray) (E_mid : R)
    (ist : Z) (total_population : R) {struct fuel} : outcome R :=
  if (ist <? size E)%Z then
    match fuel with
    | O => OutOfFuel
    | S fuel' =>
        Esb <- subscript E ist ;;
        sum_populations fuel' m Te E E_mid (uint_incr ist)
                        (total_population + find_pop Esb E_mid m Te)
    end
  else Return total_population.

(** The body of the [while] loop of [find_fermi_global]: from the bracket
    [(E_min, E_max)] and its bisector [E_mid] to the next ones. *)
Definition bisection_body (ifuel : nat) (m N Te : R) (E : valarray)
    (sign_min : Z) (E_min E_max E_mid : R) : outcome (R * R * R) :=
  total_population <- sum_populations ifuel m Te E E_mid 0 0 ;;
  let sign_mid := GSL_SIGN (total_population - N) in
  let E_min' := if (sign_mid =? sign_min)%Z then E_mid else E_min in
  let E_max' := if (sign_mid =? sign_min)%Z then E_max else E_mid in
  Return (E_min', E_max', (E_max' + E_min') / 2.0).

(** The [while] loop itself, with the convergence bound [1e-8*e] of the
    source as the parameter [tol].  [fuel] bounds the number of iterations and
    [ifuel] is the fuel of each run of the inner loop. *)
Fixpoint bisection (fuel ifuel : nat) (tol m N Te : R) (E : valarray)
    (sign_min : Z) (E_min E_max E_mid : R) {struct fuel} : outcome R :=
  if Rlt_dec tol (fabs (E_max - E_min)) then
    match fuel with
    | O => OutOfFuel
    | S fuel' =>
        st <- bisection_body ifuel m N Te E sign_min E_min E_max E_mid ;;
        let '(E_min', E_max', E_mid') := st in
        bisection fuel' ifuel tol m N Te E sign_min E_min' E_max' E_mid'
    end
  else Return E_mid.

Definition find_fermi_global (fuel : nat) (m N Te : R) (E : valarray) : outcome R :=
  let nst := size E in
  E_0 <- subscript E 0 ;;
  let E_min := E_0 - 100.0 * kB * Te in
  E_last <- subscript E (size_t_sub nst 1) ;;
  let E_max := E_last + 100.0 * kB * Te in
  let E_mid := (E_min + E_max) / 2.0 in
  let sign_min := GSL_SIGN (find_pop E_0 E_min m Te - N) in
  let sign_max := GSL_SIGN (find_pop E_0 E_max m Te - N) in
  let solvable := negb (sign_min =? sign_max)%Z in
  if solvable
  then bisection fuel fuel (1e-8 * e) m N Te E sign_min E_min E_max E_mid
  else Throw NoQuasiFermiEnergyInRange.

(** ** class QWWAD::DebyeModel *)


Definition get_internal_energy (dm : DebyeModel) (T : R) : outcome R :=
  if Rle_dec T 0 then Throw (CannotFindInternalEnergy T)
  else
    let D_3 := gsl_sf_debye_3 (_T_D dm / T) in
    Return (3.0 * Na * kB * T * D_3 * to_double (_natoms dm) / _M dm).

Definition find_U (dm : DebyeModel) (T : R) : outcome R :=
  get_internal_energy dm T.

Definition get_cp (dm : DebyeModel) (T : R) : outcome R :=
  if Rle_dec T 0 then Throw (CannotFindSpecificHeat T)
  else
    r <- gsl_deriv_forward (find_U dm) T 1 ;;
    Return (fst r).

Definition get_cp_low_T (dm : DebyeModel) (T : R) : R :=
  let pi_sq := pi * pi in
  12 * pi_sq * pi_sq * Na * kB * T * T * T
    / (_T_D dm * _T_D dm * _T_D dm * 5) * to_double (_natoms dm) / _M dm.

Definition get_cp_high_T (dm : DebyeModel) : R :=
  3 * Na * kB * to_double (_natoms dm) / _M dm.

Definition get_cp_approx (dm : DebyeModel) (T : R) : R :=
  let pi_sq := pi * pi in
  let T_match := _T_D dm * cbrt (1.25 / (pi_sq * pi_sq)) in
  if Rlt_dec T_match T then get_cp_high_T dm else get_cp_low_T dm T.

(** ** Notions of the specification *)

(** The total population of all subbands at a trial Fermi energy,
    [sum_i subbandPopulation(E_i, E_F, m, T)]. *)
Definition total_population (m Te : R) (E : valarray) (E_F : R) : R :=
  fold_left (fun acc Esb => acc + find_pop Esb E_F m Te) E 0.

(** The signed residual [g(E_F) = sum_i subbandPopulation(...) - N]. *)
Definition residual (m N Te : R) (E : valarray) (E_F : R) : R :=
  total_population m Te E E_F - N.

(** One iteration of the bisection once the inner loop has delivered the
    total population: the next bracket and its bisector. *)
Definition next_bracket (m N Te : R) (E : valarray) (sign_min : Z)
    (E_min E_max E_mid : R) : R * R * R :=
  let sign_mid := GSL_SIGN (residual m N Te E E_mid) in
  let E_min' := if (sign_mid =? sign_min)%Z then E_mid else E_min in
  let E_max' := if (sign_mid =? sign_min)%Z then E_max else E_mid in
  (E_min', E_max', (E_max' + E_min') / 2.0).

(** The endpoints of the initial search bracket. *)
Definition bracket_min (Te : R) (E : valarray) : R :=
  nth 0 E 0 - 100 * kB * Te.

Definition bracket_max (Te : R) (E : valarray) : R :=
  last E 0 + 100 * kB * Te.

(** The population change that an energy change of the tolerance produces
    around [E_F]: the population equivalent of the energy tolerance. *)
Definition population_tolerance (tol m Te : R) (E : valarray) (E_F : R) : R :=
  total_population m Te E (E_F + tol) - total_population m Te E (E_F - tol).

(** The crossover temperature [T_D * (5 / (4 pi^4))^(1/3)]. *)
Definition T_match (dm : DebyeModel) : R :=
  _T_D dm * Rpower (5 / (4 * PI ^ 4)) (1 / 3).

(** The factor of [T^3] in the low-temperature form. *)
Definition low_T_factor (dm : DebyeModel) : R :=
  12 * PI ^ 4 * Na * kB * IZR (_natoms dm) / (5 * _T_D dm ^ 3 * _M dm).

(** The two one-sided values of [get_cp_approx] at the crossover differ. *)
Definition jump_at_T_match (dm : DebyeModel) : Prop :=
  get_cp_low_T dm (T_match dm) <> get_cp_high_T dm.

(** The temperature-dependent operations, each with its other arguments,
    and a call of one at a temperature.  An operation whose C++ body has no
    [throw] and reads no array returns its value. *)
Inductive operation : Type :=
| op_f_FD (E_F E : R)
| op_f_FD_ionised (E_F Ed : R)
| op_find_pop (Esb E_F md : R)
| op_find_fermi (Esb m N : R)
| op_find_fermi_global (fuel : nat) (m N : R) (E : valarray)
| op_get_internal_energy (dm : DebyeModel)
| op_get_cp (dm : DebyeModel)
| op_get_cp_low_T (dm : DebyeModel)
| op_get_cp_approx (dm : DebyeModel).

Definition call (op : operation) (T : R) : outcome R :=
  match op with
  | op_f_FD E_F E => Return (f_FD E_F E T)
  | op_f_FD_ionised E_F Ed => Return (f_FD_ionised E_F Ed T)
  | op_find_pop Esb E_F md => Return (find_pop Esb E_F md T)
  | op_find_fermi Esb m N => Return (find_fermi Esb m N T)
  | op_find_fermi_global fuel m N E => find_fermi_global fuel m N T E
  | op_get_internal_energy dm => get_internal_energy dm T
  | op_get_cp dm => get_cp dm T
  | op_get_cp_low_T dm => Return (get_cp_low_T dm T)
  | op_get_cp_approx dm => Return (get_cp_approx dm T)
  end.

(** The operations that check their temperature. *)
Definition checks_temperature (op : operation) : bool :=
  match op with
  | op_get_internal_energy _ | op_get_cp _ => true
  | _ => false
  end.

(** [ceil (log2 (width / tol))], the number of halvings that bring [width]
    below [tol]. *)
Definition log2 (x : R) : R := ln x / ln 2.
Definition ceil (x : R) : Z := (1 - up (- x))%Z.
Definition max_iterations (width tol : R) : nat :=
  Z.to_nat (ceil (log2 (width / tol))).



(** * Properties *)

Hypothesis kB_pos : 0 < kB.
Hypothesis hBar_pos : 0 < hBar.
Hypothesis e_pos : 0 < e.

(** ** Fermi statistics *)

Lemma pi_pos : 0 < pi.
Proof. exact PI_RGT_0. Qed.

Lemma rho_pos (md : R) : 0 < md -> 0 < md / (pi * hBar * hBar).
Proof.
  intros Hmd. apply Rdiv_lt_0_compat; [exact Hmd|].
  apply Rmult_lt_0_compat; [apply Rmult_lt_0_compat|]; auto using pi_pos.
Qed.

Lemma log1p_exp_pos (y : R) : 0 < gsl_log1p (exp y).
Proof.
  unfold gsl_log1p. rewrite <- ln_1.
  apply ln_increasing; pose proof (exp_pos y); lra.
Qed.

Lemma log1p_exp_increasing (y1 y2 : R) :
  y1 < y2 -> gsl_log1p (exp y1) < gsl_log1p (exp y2).
Proof.
  intros Hy. unfold gsl_log1p.
  pose proof (exp_pos y1). pose proof (exp_increasing _ _ Hy).
  apply ln_increasing; lra.
Qed.

Lemma find_pop_pos (Esb E_F md Te : R) :
  0 < md -> 0 < Te -> 0 < find_pop Esb E_F md Te.
Proof.
  intros Hmd HTe. unfold find_pop.
  apply Rmult_lt_0_compat; [now apply rho_pos|].
  apply Rmult_lt_0_compat; [nra|apply log1p_exp_pos].
Qed.

Lemma find_pop_increasing (Esb md Te E_F1 E_F2 : R) :
  0 < md -> 0 < Te -> E_F1 < E_F2 ->
  find_pop Esb E_F1 md Te < find_pop Esb E_F2 md Te.
Proof.
  intros Hmd HTe HE. unfold find_pop.
  assert (HkT : 0 < kB * Te) by nra.
  apply Rmult_lt_compat_l; [now apply rho_pos|].
  apply Rmult_lt_compat_l; [exact HkT|].
  apply log1p_exp_increasing.
  unfold Rdiv. apply Rmult_lt_compat_r; [now apply Rinv_0_lt_compat|lra].
Qed.

Lemma find_pop_monotone (Esb md Te E_F1 E_F2 : R) :
  0 < md -> 0 < Te -> E_F1 <= E_F2 ->
  find_pop Esb E_F1 md Te <= find_pop Esb E_F2 md Te.
Proof.
  intros Hmd HTe [HE| ->]; [|lra].
  left. now apply find_pop_increasing.
Qed.

Lemma find_fermi_find_pop (Esb E_F m Te : R) :
  0 < m -> 0 < Te ->
  find_fermi Esb m (find_pop Esb E_F m Te) Te = E_F.
Proof.
  intros Hm HTe. unfold find_fermi, find_pop, log, gsl_expm1, gsl_log1p.
  pose proof pi_pos as Hpi.
  set (y := - (Esb - E_F) / (kB * Te)).
  replace (m / (pi * hBar * hBar) * (kB * Te * ln (1 + exp y)) * pi * hBar * hBar
           / (m * kB * Te)) with (ln (1 + exp y)) by (field; repeat split; lra).
  pose proof (exp_pos y).
  rewrite exp_ln by lra.
  replace (1 + exp y - 1) with (exp y) by ring.
  rewrite ln_exp. unfold y. field. split; lra.
Qed.

(** ** The inner loop *)

Lemma skipn_nth_cons (l : list R) (n : nat) :
  (n < length l)%nat -> skipn n l = nth n l 0 :: skipn (S n) l.
Proof.
  revert n. induction l as [|x l IH]; intros [|n] Hn; simpl in *; try lia.
  - reflexivity.
  - apply IH. lia.
Qed.

Lemma subscript_in_bounds (E : valarray) (i : Z) :
  (0 <= i < size E)%Z -> subscript E i = Return (nth (Z.to_nat i) E 0).
Proof.
  intros Hi. unfold subscript.
  destruct (Z.leb_spec 0 i); [|lia].
  destruct (Z.ltb_spec i (size E)); [reflexivity|lia].
Qed.

Lemma uint_incr_small (i : Z) :
  (0 <= i)%Z -> (i + 1 < uint_max)%Z -> uint_incr i = (i + 1)%Z.
Proof. intros H0 H1. unfold uint_incr. apply Z.mod_small. lia. Qed.

Lemma uint_incr_range (i : Z) : (0 <= uint_incr i < uint_max)%Z.
Proof. unfold uint_incr. apply Z.mod_pos_bound. reflexivity. Qed.

(** With a counter that cannot wrap and enough fuel, the loop adds the
    populations of the subbands from [ist] on. *)
Lemma sum_populations_from (m Te : R) (E : valarray) (E_mid : R) :
  (size E < uint_max)%Z ->
  forall (fuel : nat) (ist : Z) (acc : R),
    (0 <= ist <= size E)%Z -> (size E - ist <= Z.of_nat fuel)%Z ->
    sum_populations fuel m Te E E_mid ist acc =
    Return (fold_left (fun a Esb => a + find_pop Esb E_mid m Te)
                      (skipn (Z.to_nat ist) E) acc).
Proof.
  intros Hsz fuel. induction fuel as [|fuel IH]; intros ist acc Hist Hfuel.
  - assert (ist = size E) by lia. subst ist. simpl.
    rewrite Z.ltb_irrefl. unfold size. rewrite Nat2Z.id, skipn_all. reflexivity.
  - simpl. destruct (Z.ltb_spec ist (size E)) as [Hlt|Hge].
    + rewrite subscript_in_bounds by lia. simpl.
      rewrite uint_incr_small by lia.
      rewrite IH by lia.
      rewrite (skipn_nth_cons E (Z.to_nat ist)) by (unfold size in *; lia).
      simpl. replace (Z.to_nat (ist + 1)) with (S (Z.to_nat ist)) by lia.
      reflexivity.
    + assert (ist = size E) by lia. subst ist.
      unfold size. rewrite Nat2Z.id, skipn_all. reflexivity.
Qed.

(** With too little fuel the loop runs out of it. *)
Lemma sum_populations_short (m Te : R) (E : valarray) (E_mid : R) :
  (size E < uint_max)%Z ->
  forall (fuel : nat) (ist : Z) (acc : R),
    (0 <= ist <= size E)%Z -> (Z.of_nat fuel < size E - ist)%Z ->
    sum_populations fuel m Te E E_mid ist acc = OutOfFuel.
Proof.
  intros Hsz fuel. induction fuel as [|fuel IH]; intros ist acc Hist Hfuel; simpl.
  - destruct (Z.ltb_spec ist (size E)); [reflexivity|lia].
  - destruct (Z.ltb_spec ist (size E)); [|lia].
    rewrite subscript_in_bounds by lia. simpl.
    rewrite uint_incr_small by lia. apply IH; lia.
Qed.

(** On an array of [2^32] elements or more the counter wraps before it
    reaches [nst]: the loop never ends. *)
Lemma sum_populations_wraps (m Te : R) (E : valarray) (E_mid : R) :
  (uint_max <= size E)%Z ->
  forall (fuel : nat) (ist : Z) (acc : R),
    (0 <= ist < uint_max)%Z ->
    sum_populations fuel m Te E E_mid ist acc = OutOfFuel.
Proof.
  intros Hsz fuel. induction fuel as [|fuel IH]; intros ist acc Hist; simpl.
  - destruct (Z.ltb_spec ist (size E)); [reflexivity|lia].
  - destruct (Z.ltb_spec ist (size E)); [|lia].
    rewrite subscript_in_bounds by lia. simpl.
    apply IH. apply uint_incr_range.
Qed.

Lemma sum_populations_cases (fuel : nat) (m Te : R) (E : valarray) (E_mid : R) :
  sum_populations fuel m Te E E_mid 0 0 =
  if ((size E <? uint_max) && (size E <=? Z.of_nat fuel))%Z
  then Return (total_population m Te E E_mid)
  else OutOfFuel.
Proof.
  assert (H0 : (0 <= size E)%Z) by (unfold size; lia).
  destruct (Z.ltb_spec (size E) uint_max) as [Hsz|Hsz]; simpl.
  - destruct (Z.leb_spec (size E) (Z.of_nat fuel)) as [Hf|Hf].
    + rewrite sum_populations_from by lia. reflexivity.
    + apply sum_populations_short; lia.
  - apply sum_populations_wraps; [exact Hsz|]. unfold uint_max. lia.
Qed.

(** ** The bisection loop *)

Lemma GSL_SIGN_cases (x : R) :
  (0 <= x /\ GSL_SIGN x = 1%Z) \/ (x < 0 /\ GSL_SIGN x = (-1)%Z).
Proof. unfold GSL_SIGN. destruct (Rle_dec 0 x); [left|right]; split; auto; lra. Qed.

Lemma GSL_SIGN_nonneg (x : R) : 0 <= x -> GSL_SIGN x = 1%Z.
Proof. destruct (GSL_SIGN_cases x) as [[_ H]|[H _]]; [auto|lra]. Qed.

Lemma GSL_SIGN_neg (x : R) : x < 0 -> GSL_SIGN x = (-1)%Z.
Proof. destruct (GSL_SIGN_cases x) as [[H _]|[_ H]]; [lra|auto]. Qed.

Lemma bisection_body_cases (ifuel : nat) (m N Te : R) (E : valarray)
    (sign_min : Z) (E_min E_max E_mid : R) :
  bisection_body ifuel m N Te E sign_min E_min E_max E_mid =
  if ((size E <? uint_max) && (size E <=? Z.of_nat ifuel))%Z
  then Return (next_bracket m N Te E sign_min E_min E_max E_mid)
  else OutOfFuel.
Proof.
  unfold bisection_body. rewrite sum_populations_cases.
  destruct ((size E <? uint_max) && (size E <=? Z.of_nat ifuel))%Z; reflexivity.
Qed.

Lemma bisection_body_runs (ifuel : nat) (m N Te : R) (E : valarray)
    (sign_min : Z) (E_min E_max E_mid : R) :
  (size E < uint_max)%Z -> (size E <= Z.of_nat ifuel)%Z ->
  bisection_body ifuel m N Te E sign_min E_min E_max E_mid =
  Return (next_bracket m N Te E sign_min E_min E_max E_mid).
Proof.
  intros Hsz Hf. rewrite bisection_body_cases.
  destruct (Z.ltb_spec (size E) uint_max); [|lia].
  destruct (Z.leb_spec (size E) (Z.of_nat ifuel)); [reflexivity|lia].
Qed.

Lemma bisection_body_returns (ifuel : nat) (m N Te : R) (E : valarray)
    (sign_min : Z) (E_min E_max E_mid : R) (st : R * R * R) :
  bisection_body ifuel m N Te E sign_min E_min E_max E_mid = Return st ->
  st = next_bracket m N Te E sign_min E_min E_max E_mid.
Proof.
  rewrite bisection_body_cases.
  destruct ((size E <? uint_max) && (size E <=? Z.of_nat ifuel))%Z; congruence.
Qed.

(** The next bracket keeps one endpoint and moves the other to the
    bisector: its width is half the old one. *)
Lemma next_bracket_halves (m N Te : R) (E : valarray) (sign_min : Z)
    (E_min E_max E_mid E_min' E_max' E_mid' : R) :
  E_mid = (E_min + E_max) / 2 ->
  next_bracket m N Te E sign_min E_min E_max E_mid = (E_min', E_max', E_mid') ->
  fabs (E_max' - E_min') = fabs (E_max - E_min) / 2 /\
  E_mid' = (E_min' + E_max') / 2.
Proof.
  intros Hmid Hnext. unfold next_bracket in Hnext.
  destruct (GSL_SIGN (residual m N Te E E_mid) =? sign_min)%Z;
    injection Hnext as <- <- <-; subst E_mid; unfold fabs; split; try lra.
  - replace (E_max - (E_min + E_max) / 2) with ((E_max - E_min) / 2) by lra.
    unfold Rdiv. rewrite Rabs_mult, (Rabs_pos_eq (/ 2)) by lra. reflexivity.
  - replace ((E_min + E_max) / 2 - E_min) with ((E_max - E_min) / 2) by lra.
    unfold Rdiv. rewrite Rabs_mult, (Rabs_pos_eq (/ 2)) by lra. reflexivity.
Qed.

(** Any property of brackets kept by an iteration holds of the bracket the
    loop stops at; the loop returns the bisector of that bracket, which is
    no wider than the tolerance. *)
Lemma bisection_invariant (P : R -> R -> Prop) (tol m N Te : R) (E : valarray)
    (sign_min : Z) :
  (forall a b a' b' c',
      P a b -> tol < fabs (b - a) ->
      next_bracket m N Te E sign_min a b ((a + b) / 2) = (a', b', c') ->
      P a' b') ->
  forall (fuel ifuel : nat) (E_min E_max E_mid v : R),
    E_mid = (E_min + E_max) / 2 ->
    P E_min E_max ->
    bisection fuel ifuel tol m N Te E sign_min E_min E_max E_mid = Return v ->
    exists a b, P a b /\ fabs (b - a) <= tol /\ v = (a + b) / 2.
Proof.
  intros Hstep fuel ifuel.
  induction fuel as [|fuel IH]; intros E_min E_max E_mid v Hmid HP Hrun; simpl in Hrun.
  - destruct (Rlt_dec tol (fabs (E_max - E_min))) as [Hw|Hw]; [discriminate|].
    injection Hrun as <-. exists E_min, E_max. repeat split; auto; lra.
  - destruct (Rlt_dec tol (fabs (E_max - E_min))) as [Hw|Hw].
    + destruct (bisection_body ifuel m N Te E sign_min E_min E_max E_mid)
        as [[[a' b'] c']| | |] eqn:Hbody; simpl in Hrun; try discriminate.
      apply bisection_body_returns in Hbody. symmetry in Hbody.
      destruct (next_bracket_halves _ _ _ _ _ _ _ _ _ _ _ Hmid Hbody) as [_ Hmid'].
      subst E_mid. apply (IH a' b' c' v Hmid'); [|exact Hrun].
      eapply Hstep; eauto.
    + injection Hrun as <-. exists E_min, E_max. repeat split; auto; lra.
Qed.

(** [n] halvings bring the width below the tolerance: the loop ends within
    [n] iterations. *)
Lemma bisection_terminates (tol m N Te : R) (E : valarray) (sign_min : Z)
    (ifuel : nat) :
  (size E < uint_max)%Z -> (size E <= Z.of_nat ifuel)%Z ->
  forall (n fuel : nat) (E_min E_max E_mid : R),
    (n <= fuel)%nat ->
    E_mid = (E_min + E_max) / 2 ->
    fabs (E_max - E_min) <= tol * 2 ^ n ->
    exists v, bisection fuel ifuel tol m N Te E sign_min E_min E_max E_mid = Return v.
Proof.
  intros Hsz Hif n.
  induction n as [|n IH]; intros fuel E_min E_max E_mid Hfuel Hmid Hw.
  - simpl in Hw. destruct fuel; simpl;
      (destruct (Rlt_dec tol (fabs (E_max - E_min))); [lra|eauto]).
  - destruct fuel as [|fuel]; [lia|]. simpl.
    destruct (Rlt_dec tol (fabs (E_max - E_min))); [|eauto].
    rewrite bisection_body_runs by assumption.
    destruct (next_bracket m N Te E sign_min E_min E_max E_mid)
      as [[a' b'] c'] eqn:Hnext. cbn [bind].
    destruct (next_bracket_halves _ _ _ _ _ _ _ _ _ _ _ Hmid Hnext) as [Hhalf Hmid'].
    apply IH; [lia|exact Hmid'|].
    rewrite Hhalf. simpl in Hw. lra.
Qed.

Lemma bisection_outcome (fuel ifuel : nat) (tol m N Te : R) (E : valarray)
    (sign_min : Z) (E_min E_max E_mid : R) :
  bisection fuel ifuel tol m N Te E sign_min E_min E_max E_mid = OutOfFuel \/
  exists v, bisection fuel ifuel tol m N Te E sign_min E_min E_max E_mid = Return v.
Proof.
  revert E_min E_max E_mid.
  induction fuel as [|fuel IH]; intros E_min E_max E_mid; simpl;
    destruct (Rlt_dec tol (fabs (E_max - E_min))); eauto.
  rewrite bisection_body_cases.
  destruct ((size E <? uint_max) && (size E <=? Z.of_nat ifuel))%Z; [|now left].
  destruct (next_bracket m N Te E sign_min E_min E_max E_mid) as [[a b] c].
  cbn [bind]. apply IH.
Qed.

(** Case analysis on the outcome of the loop named in the goal or in a
    hypothesis: out of fuel, or a value [v]. *)
Ltac bisection_cases H :=
  match goal with
  | |- context [bisection ?f ?i ?t ?m ?N ?T ?E ?s ?a ?b ?c] =>
      destruct (bisection_outcome f i t m N T E s a b c) as [H|[? H]]
  | _ : context [bisection ?f ?i ?t ?m ?N ?T ?E ?s ?a ?b ?c] |- _ =>
      destruct (bisection_outcome f i t m N T E s a b c) as [H|[? H]]
  end.

(** ** The first and last subband *)

Lemma size_nonempty (E : valarray) : E <> [] -> (0 < size E)%Z.
Proof. destruct E; [congruence|]. intros _. unfold size. simpl. lia. Qed.

Lemma nth_pred_length_last (l : list R) : nth (pred (length l)) l 0 = last l 0.
Proof.
  induction l as [|x l IH]; [reflexivity|].
  destruct l as [|y l]; [reflexivity|]. exact IH.
Qed.

Lemma subscript_first (E : valarray) :
  E <> [] -> subscript E 0 = Return (nth 0 E 0).
Proof. intros HE. apply (subscript_in_bounds E 0). pose proof (size_nonempty E HE). lia. Qed.

Lemma size_t_sub_one_range (n : Z) : (0 < n)%Z -> (0 <= size_t_sub n 1 < n)%Z.
Proof.
  intros Hn. unfold size_t_sub.
  assert (Hmax : (0 < size_t_max)%Z) by reflexivity.
  pose proof (Z.mod_pos_bound (n - 1) size_t_max Hmax).
  pose proof (Z.mod_le (n - 1) size_t_max). lia.
Qed.

Lemma subscript_last (E : valarray) :
  E <> [] -> (size E <= size_t_max)%Z ->
  subscript E (size_t_sub (size E) 1) = Return (last E 0).
Proof.
  intros HE Hmax. pose proof (size_nonempty E HE) as Hpos.
  rewrite subscript_in_bounds by (apply size_t_sub_one_range; exact Hpos).
  unfold size_t_sub. rewrite Z.mod_small by lia.
  replace (Z.to_nat (size E - 1)) with (pred (length E)) by (unfold size; lia).
  now rewrite nth_pred_length_last.
Qed.

(** [find_fermi_global] on a non-empty array: the bracket, the two signs
    taken from the first subband, and the loop or the exception. *)
Lemma find_fermi_global_nonempty (fuel : nat) (m N Te : R) (E : valarray) :
  E <> [] -> (size E <= size_t_max)%Z ->
  find_fermi_global fuel m N Te E =
  let E_min := bracket_min Te E in
  let E_max := bracket_max Te E in
  let sign_min := GSL_SIGN (find_pop (nth 0 E 0) E_min m Te - N) in
  let sign_max := GSL_SIGN (find_pop (nth 0 E 0) E_max m Te - N) in
  if (sign_min =? sign_max)%Z
  then Throw NoQuasiFermiEnergyInRange
  else bisection fuel fuel (1e-8 * e) m N Te E sign_min E_min E_max
                 ((E_min + E_max) / 2).
Proof.
  intros HE Hmax. unfold find_fermi_global.
  rewrite subscript_first, subscript_last by assumption. cbn [bind].
  unfold bracket_min, bracket_max.
  replace 100.0 with 100 by lra. replace 2.0 with 2 by lra.
  cbv zeta.
  destruct (_ =? _)%Z; reflexivity.
Qed.

(** ** The iteration bound *)

Lemma ceil_ge (x : R) : x <= IZR (ceil x).
Proof.
  unfold ceil. rewrite minus_IZR.
  destruct (archimed (- x)) as [_ H]. lra.
Qed.

Lemma INR_to_nat_ge (z : Z) : IZR z <= INR (Z.to_nat z).
Proof.
  destruct (Z_lt_le_dec z 0) as [Hneg|Hpos].
  - replace (Z.to_nat z) with 0%nat by lia. simpl.
    apply IZR_lt in Hneg. lra.
  - rewrite INR_IZR_INZ, Z2Nat.id by exact Hpos. lra.
Qed.

Lemma ln_2_pos : 0 < ln 2.
Proof. rewrite <- ln_1. apply ln_increasing; lra. Qed.

Lemma max_iterations_enough (width tol : R) :
  0 < tol -> 0 <= width -> width <= tol * 2 ^ max_iterations width tol.
Proof.
  intros Htol [Hw|<-].
  - set (x := width / tol).
    assert (Hx : 0 < x) by (apply Rdiv_lt_0_compat; assumption).
    assert (Hn : log2 x <= INR (max_iterations width tol)).
    { unfold max_iterations. fold x.
      eapply Rle_trans; [apply ceil_ge|apply INR_to_nat_ge]. }
    assert (Hpow : x <= 2 ^ max_iterations width tol).
    { rewrite <- Rpower_pow by lra. unfold Rpower.
      rewrite <- (exp_ln x Hx) at 1.
      pose proof ln_2_pos as H2. unfold log2 in Hn.
      assert (ln x <= INR (max_iterations width tol) * ln 2).
      { apply (Rmult_le_compat_r (ln 2)) in Hn; [|lra].
        unfold Rdiv in Hn. rewrite Rmult_assoc, Rinv_l, Rmult_1_r in Hn by lra.
        exact Hn. }
      destruct H as [H| ->]; [left; now apply exp_increasing|right; reflexivity]. }
    replace width with (tol * x) at 1 by (unfold x; field; lra).
    apply Rmult_le_compat_l; lra.
  - assert (0 < 2 ^ max_iterations 0 tol) by (apply pow_lt; lra).
    nra.
Qed.

(** ** Bounds on [log1p (exp y)] *)

Lemma log1p_exp_ge_arg (y : R) : y < gsl_log1p (exp y).
Proof.
  unfold gsl_log1p. rewrite <- (ln_exp y) at 1.
  pose proof (exp_pos y). apply ln_increasing; lra.
Qed.

Lemma log1p_exp_le_exp (y : R) : gsl_log1p (exp y) <= exp y.
Proof.
  unfold gsl_log1p. pose proof (exp_pos y) as Hy.
  rewrite <- (ln_exp (exp y)) at 2.
  pose proof (exp_ineq1_le (exp y)) as [H|H].
  - left. apply ln_increasing; lra.
  - right. now rewrite H.
Qed.

Lemma exp_1_ge_2 : 2 <= exp 1.
Proof. pose proof (exp_ineq1_le 1). lra. Qed.

Lemma log1p_exp_le_succ (y : R) : 0 <= y -> gsl_log1p (exp y) <= y + 1.
Proof.
  intros Hy. unfold gsl_log1p. rewrite <- (ln_exp (y + 1)).
  assert (H : 1 + exp y <= exp (y + 1)).
  { rewrite exp_plus. pose proof exp_1_ge_2.
    assert (1 <= exp y).
    { destruct Hy as [Hy| <-]; [|rewrite exp_0; lra].
      left. rewrite <- exp_0. now apply exp_increasing. }
    nra. }
  pose proof (exp_pos y).
  destruct H as [H|H]; [left; apply ln_increasing; lra|right; now rewrite H].
Qed.

Lemma ln_le_pred (x : R) : 0 < x -> ln x <= x - 1.
Proof.
  intros Hx. rewrite <- (ln_exp (x - 1)).
  pose proof (exp_ineq1_le (x - 1)) as [H|H].
  - left. apply ln_increasing; lra.
  - right. f_equal. lra.
Qed.

Lemma log1p_exp_lower (y : R) : exp y / (1 + exp y) <= gsl_log1p (exp y).
Proof.
  unfold gsl_log1p. pose proof (exp_pos y) as Hy.
  assert (Hinv : 0 < / (1 + exp y)) by (apply Rinv_0_lt_compat; lra).
  pose proof (ln_le_pred _ Hinv) as H. rewrite ln_Rinv in H by lra.
  replace (exp y / (1 + exp y)) with (1 - / (1 + exp y)) by (field; lra).
  lra.
Qed.

Lemma log1p_exp_diff (y1 y2 : R) :
  y1 <= y2 -> gsl_log1p (exp y2) - gsl_log1p (exp y1) <= exp y2 - exp y1.
Proof.
  intros Hy. unfold gsl_log1p.
  pose proof (exp_pos y1) as H1. pose proof (exp_pos y2) as H2.
  assert (H12 : exp y1 <= exp y2).
  { destruct Hy as [Hy| ->]; [left; now apply exp_increasing|lra]. }
  assert (Hq : 0 < (1 + exp y2) / (1 + exp y1)) by (apply Rdiv_lt_0_compat; lra).
  pose proof (ln_le_pred _ Hq) as H.
  unfold Rdiv in H at 1. rewrite ln_mult, ln_Rinv in H by (try apply Rinv_0_lt_compat; lra).
  assert ((1 + exp y2) / (1 + exp y1) - 1 <= exp y2 - exp y1).
  { replace ((1 + exp y2) / (1 + exp y1) - 1)
      with ((exp y2 - exp y1) * / (1 + exp y1)) by (field; lra).
    assert (/ (1 + exp y1) <= 1).
    { rewrite <- Rinv_1. apply Rinv_le_contravar; lra. }
    nra. }
  lra.
Qed.

(** [exp x <= 1 / (1 - x)] below [1]. *)
Lemma exp_le_inv (x : R) : x < 1 -> exp x <= / (1 - x).
Proof.
  intros Hx. pose proof (exp_ineq1_le (- x)) as H. rewrite exp_Ropp in H.
  pose proof (exp_pos x) as Hp.
  rewrite <- (Rinv_inv (exp x)).
  apply Rinv_le_contravar; lra.
Qed.

(** ** Populations at an offset from the subband minimum *)

Lemma find_pop_offset (Esb c md Te : R) :
  0 < Te ->
  find_pop Esb (Esb + c * kB * Te) md Te =
  md / (pi * hBar * hBar) * (kB * Te) * gsl_log1p (exp c).
Proof.
  intros HTe. unfold find_pop. cbv zeta.
  replace (- (Esb - (Esb + c * kB * Te)) / (kB * Te)) with c by (field; lra).
  ring.
Qed.

Lemma find_pop_at (Esb E_F md Te : R) :
  find_pop Esb E_F md Te =
  md / (pi * hBar * hBar) * (kB * Te) * gsl_log1p (exp ((E_F - Esb) / (kB * Te))).
Proof.
  unfold find_pop. cbv zeta.
  replace (- (Esb - E_F) / (kB * Te)) with ((E_F - Esb) / (kB * Te))
    by (unfold Rdiv; ring).
  ring.
Qed.

Lemma total_population_pair (m Te Esb E_F : R) :
  total_population m Te [Esb; Esb] E_F = 2 * find_pop Esb E_F m Te.
Proof. unfold total_population. simpl. ring. Qed.

Lemma bracket_pair (Te Esb : R) :
  bracket_min Te [Esb; Esb] = Esb + (-100) * kB * Te /\
  bracket_max Te [Esb; Esb] = Esb + 100 * kB * Te.
Proof. unfold bracket_min, bracket_max. simpl. split; ring. Qed.

Lemma pair_nonempty (Esb : R) :
  [Esb; Esb] <> [] /\ (size [Esb; Esb] <= size_t_max)%Z /\
  (size [Esb; Esb] < uint_max)%Z /\ size [Esb; Esb] = 2%Z.
Proof. repeat split; try discriminate; reflexivity. Qed.

Lemma exp_neg_lt_1 (x : R) : x < 0 -> exp x < 1.
Proof. intros Hx. rewrite <- exp_0. now apply exp_increasing. Qed.

(** ** The returned energy lies inside the bracket *)

Lemma find_fermi_global_inside_bracket (fuel : nat) (m N Te : R) (E : valarray)
    (v : R) :
  (size E <= size_t_max)%Z ->
  find_fermi_global fuel m N Te E = Return v ->
  Rmin (bracket_min Te E) (bracket_max Te E) < v <
  Rmax (bracket_min Te E) (bracket_max Te E).
Proof.
  intros Hmax Hrun.
  assert (Hne : E <> []) by (intros ->; discriminate).
  rewrite find_fermi_global_nonempty in Hrun by assumption. cbv zeta in Hrun.
  set (a0 := bracket_min Te E) in *. set (b0 := bracket_max Te E) in *.
  set (sign_min := GSL_SIGN (find_pop (nth 0 E 0) a0 m Te - N)) in *.
  destruct (Z.eqb_spec sign_min (GSL_SIGN (find_pop (nth 0 E 0) b0 m Te - N)))
    as [Heq|Hneq]; [discriminate|].
  assert (Hab : a0 <> b0) by (intros Hab; apply Hneq; unfold sign_min; now rewrite Hab).
  pose (P := fun a b : R =>
               Rmin a0 b0 <= a <= Rmax a0 b0 /\
               Rmin a0 b0 <= b <= Rmax a0 b0 /\ a <> b).
  assert (Hstep : forall a b a' b' c',
             P a b -> 1e-8 * e < fabs (b - a) ->
             next_bracket m N Te E sign_min a b ((a + b) / 2) = (a', b', c') ->
             P a' b').
  { intros a b a' b' c' (Ha & Hb & Hne') _ Hnext. unfold next_bracket in Hnext.
    destruct (_ =? _)%Z; injection Hnext as <- <- _; unfold P;
      repeat split; lra. }
  assert (HP : P a0 b0).
  { unfold P. pose proof (Rmin_l a0 b0). pose proof (Rmin_r a0 b0).
    pose proof (Rmax_l a0 b0). pose proof (Rmax_r a0 b0). repeat split; lra. }
  destruct (bisection_invariant P _ m N Te E sign_min Hstep fuel fuel a0 b0 _ v
              eq_refl HP Hrun) as (a & b & (Ha & Hb & Hne') & _ & ->).
  split; lra.
Qed.

(** ** The temperature checks *)

Lemma subscript_outcome (E : valarray) (i : Z) :
  subscript E i = OutOfBounds \/ exists x, subscript E i = Return x.
Proof. unfold subscript. destruct (_ && _)%bool; eauto. Qed.

Lemma find_fermi_global_temperature (fuel : nat) (m N Te : R) (E : valarray) :
  ~ is_InvalidTemperature (find_fermi_global fuel m N Te E).
Proof.
  unfold find_fermi_global.
  destruct (subscript_outcome E 0) as [->|[E_0 ->]]; cbn [bind]; [simpl; tauto|].
  destruct (subscript_outcome E (size_t_sub (size E) 1)) as [->|[E_last ->]];
    cbn [bind]; [simpl; tauto|].
  cbv zeta. destruct (negb _); [|simpl; tauto].
  bisection_cases H; rewrite H; simpl; tauto.
Qed.

(** ** The crossover of the two approximations *)

Lemma cbrt_of_pos (x : R) : 0 < x -> cbrt x = Rpower x (/ 3).
Proof.
  intros Hx. unfold cbrt.
  destruct (total_order_T x 0) as [[H|H]|H]; [lra|lra|reflexivity].
Qed.

Lemma Rpower_third_cubed (x : R) :
  0 < x -> Rpower x (/ 3) * Rpower x (/ 3) * Rpower x (/ 3) = x.
Proof.
  intros Hx. rewrite <- !Rpower_plus.
  replace (/ 3 + / 3 + / 3) with 1 by lra. now apply Rpower_1.
Qed.

Lemma crossover_ratio_pos : 0 < 5 / (4 * PI ^ 4).
Proof.
  pose proof PI_RGT_0 as Hpi.
  apply Rdiv_lt_0_compat; [lra|].
  apply Rmult_lt_0_compat; [lra|]. apply pow_lt. exact Hpi.
Qed.

Lemma T_match_code (dm : DebyeModel) :
  _T_D dm * cbrt (1.25 / (pi * pi * (pi * pi))) = T_match dm.
Proof.
  unfold T_match, pi. pose proof PI_RGT_0 as Hpi.
  replace 1.25 with (5 / 4) by lra.
  replace (5 / 4 / (PI * PI * (PI * PI))) with (5 / (4 * PI ^ 4))
    by (field; lra).
  rewrite cbrt_of_pos by apply crossover_ratio_pos.
  replace (1 / 3) with (/ 3) by lra. reflexivity.
Qed.

Lemma get_cp_low_T_closed_form (dm : DebyeModel) (T : R) :
  get_cp_low_T dm T =
  12 * PI ^ 4 * Na * kB * T ^ 3 * IZR (_natoms dm) / (5 * _T_D dm ^ 3 * _M dm).
Proof.
  unfold get_cp_low_T, to_double, pi, Rdiv. cbv zeta.
  rewrite !Rinv_mult. simpl. rewrite !Rinv_mult, Rinv_1. ring.
Qed.

Lemma get_cp_approx_cases (dm : DebyeModel) (T : R) :
  get_cp_approx dm T =
  if Rlt_dec (T_match dm) T then get_cp_high_T dm else get_cp_low_T dm T.
Proof. unfold get_cp_approx. cbv zeta. now rewrite T_match_code. Qed.

(** At the crossover the two approximations have the same value. *)
Lemma approximations_meet (dm : DebyeModel) :
  0 < _T_D dm -> get_cp_low_T dm (T_match dm) = get_cp_high_T dm.
Proof.
  intros HTD. unfold get_cp_low_T, get_cp_high_T, T_match, pi. cbv zeta.
  set (c := Rpower (5 / (4 * PI ^ 4)) (1 / 3)).
  assert (Hc : c * c * c = 5 / (4 * PI ^ 4)).
  { unfold c. replace (1 / 3) with (/ 3) by lra.
    apply Rpower_third_cubed, crossover_ratio_pos. }
  pose proof PI_RGT_0 as Hpi.
  replace (12 * (PI * PI) * (PI * PI) * Na * kB * (_T_D dm * c) * (_T_D dm * c)
           * (_T_D dm * c) / (_T_D dm * _T_D dm * _T_D dm * 5))
    with (12 * (PI * PI) * (PI * PI) * Na * kB * (c * c * c) / 5)
    by (field; lra).
  replace (12 * (PI * PI) * (PI * PI) * Na * kB * (c * c * c) / 5)
    with (3 * Na * kB) by (rewrite Hc; field; lra).
  reflexivity.
Qed.

Lemma get_cp_approx_continuous_at_crossover (dm : DebyeModel) :
  0 < _T_D dm -> continuity_pt (get_cp_approx dm) (T_match dm).
Proof.
  intros HTD.
  assert (Hlow : continuity_pt (get_cp_low_T dm) (T_match dm)).
  { unfold get_cp_low_T. cbv zeta. reg. }
  pose proof (approximations_meet dm HTD) as Hmeet.
  unfold continuity_pt, continue_in, limit1_in, limit_in in *.
  intros eps Heps. destruct (Hlow eps Heps) as (delta & Hdelta & Hclose).
  exists delta. split; [exact Hdelta|]. intros x Hx.
  specialize (Hclose x Hx). simpl in *.
  rewrite !get_cp_approx_cases.
  destruct (Rlt_dec (T_match dm) (T_match dm)) as [Habs|_]; [lra|].
  destruct (Rlt_dec (T_match dm) x); [|exact Hclose].
  rewrite Hmeet. unfold Rdist. rewrite Rminus_diag, Rabs_R0. exact Heps.
Qed.

(** ** When the signs of the first subband are those of all subbands *)

Lemma fold_populations_monotone (m Te E_F1 E_F2 : R) (E : valarray) :
  0 < m -> 0 < Te -> E_F1 <= E_F2 ->
  forall acc1 acc2, acc1 <= acc2 ->
  fold_left (fun acc Esb => acc + find_pop Esb E_F1 m Te) E acc1 <=
  fold_left (fun acc Esb => acc + find_pop Esb E_F2 m Te) E acc2.
Proof.
  intros Hm HTe HE. induction E as [|Esb E IH]; intros acc1 acc2 Hacc; simpl.
  - exact Hacc.
  - apply IH. pose proof (find_pop_monotone Esb m Te E_F1 E_F2 Hm HTe HE). lra.
Qed.

Lemma total_population_monotone (m Te E_F1 E_F2 : R) (E : valarray) :
  0 < m -> 0 < Te -> E_F1 <= E_F2 ->
  total_population m Te E E_F1 <= total_population m Te E E_F2.
Proof.
  intros Hm HTe HE. unfold total_population.
  apply fold_populations_monotone; auto; lra.
Qed.

(** [find_fermi_global] throws exactly when the residual of the first
    subband has the same sign at both ends of the bracket. *)
Lemma find_fermi_global_throws_iff (fuel : nat) (m N Te : R) (E : valarray) :
  E <> [] -> (size E <= size_t_max)%Z ->
  (is_NoSolutionInRange (find_fermi_global fuel m N Te E) <->
   GSL_SIGN (find_pop (nth 0 E 0) (bracket_min Te E) m Te - N) =
   GSL_SIGN (find_pop (nth 0 E 0) (bracket_max Te E) m Te - N)).
Proof.
  clear gsl_sf_debye_3 gsl_deriv_forward.
  intros Hne Hmax. rewrite find_fermi_global_nonempty by assumption. cbv zeta.
  destruct (Z.eqb_spec (GSL_SIGN (find_pop (nth 0 E 0) (bracket_min Te E) m Te - N))
                       (GSL_SIGN (find_pop (nth 0 E 0) (bracket_max Te E) m Te - N)))
    as [Heq|Hneq]; [simpl; tauto|].
  split; [|tauto]. intros Herr. exfalso.
  bisection_cases H; rewrite H in Herr; exact Herr.
Qed.


(** Where the residual of all subbands has, at the two ends of the bracket,
    the signs that the code takes from the first subband, the residual at
    the energy returned is within the population equivalent of the energy
    tolerance. *)
Lemma find_fermi_global_residual_bound (fuel : nat) (m N Te : R) (E : valarray)
    (v : R) :
  0 < m -> 0 < Te -> (size E <= size_t_max)%Z ->
  GSL_SIGN (residual m N Te E (bracket_min Te E)) =
  GSL_SIGN (find_pop (nth 0 E 0) (bracket_min Te E) m Te - N) ->
  GSL_SIGN (residual m N Te E (bracket_max Te E)) =
  GSL_SIGN (find_pop (nth 0 E 0) (bracket_max Te E) m Te - N) ->
  find_fermi_global fuel m N Te E = Return v ->
  Rabs (residual m N Te E v) <= population_tolerance (1e-8 * e) m Te E v.
Proof.
  intros Hm HTe Hmax Hsmin Hsmax Hrun.
  assert (Hne : E <> []) by (intros ->; discriminate).
  rewrite find_fermi_global_nonempty in Hrun by assumption. cbv zeta in Hrun.
  rewrite <- Hsmin, <- Hsmax in Hrun.
  set (a0 := bracket_min Te E) in *. set (b0 := bracket_max Te E) in *.
  set (g := residual m N Te E) in *.
  set (sign_min := GSL_SIGN (g a0)) in *.
  destruct (Z.eqb_spec sign_min (GSL_SIGN (g b0))) as [Heq|Hneq]; [discriminate|].
  pose (P := fun a b : R => GSL_SIGN (g a) = sign_min /\ GSL_SIGN (g b) <> sign_min).
  assert (Hstep : forall a b a' b' c',
             P a b -> 1e-8 * e < fabs (b - a) ->
             next_bracket m N Te E sign_min a b ((a + b) / 2) = (a', b', c') ->
             P a' b').
  { intros a b a' b' c' [Ha Hb] _ Hnext. unfold next_bracket in Hnext.
    fold g in Hnext.
    destruct (Z.eqb_spec (GSL_SIGN (g ((a + b) / 2))) sign_min);
      injection Hnext as <- <- _; unfold P; auto. }
  assert (HP : P a0 b0) by (unfold P; split; [reflexivity|congruence]).
  destruct (bisection_invariant P _ m N Te E sign_min Hstep fuel fuel a0 b0 _ v
              eq_refl HP Hrun) as (a & b & [Ha Hb] & Hw & ->).
  clear Hrun Hstep HP. unfold fabs in Hw.
  set (tol := 1e-8 * e) in *. set (c := (a + b) / 2).
  assert (Hmono : forall x y, x <= y -> g x <= g y).
  { intros x y Hxy. unfold g, residual.
    pose proof (total_population_monotone m Te x y E Hm HTe Hxy). lra. }
  assert (Htolerance : population_tolerance tol m Te E c = g (c + tol) - g (c - tol)).
  { unfold population_tolerance, g, residual. ring. }
  rewrite Htolerance.
  assert (Hsigns : (g a < 0 /\ 0 <= g b) \/ (g b < 0 /\ 0 <= g a)).
  { destruct (GSL_SIGN_cases (g a)) as [[Hga Hsa]|[Hga Hsa]],
             (GSL_SIGN_cases (g b)) as [[Hgb Hsb]|[Hgb Hsb]]; auto;
      exfalso; apply Hb; congruence. }
  destruct (Rle_dec a b) as [Hab|Hab].
  - rewrite Rabs_pos_eq in Hw by lra.
    pose proof (Hmono a c ltac:(unfold c; lra)).
    pose proof (Hmono c b ltac:(unfold c; lra)).
    pose proof (Hmono (c - tol) a ltac:(unfold c; lra)).
    pose proof (Hmono b (c + tol) ltac:(unfold c; lra)).
    destruct Hsigns as [[Hneg Hpos]|[Hneg Hpos]]; apply Rabs_le; lra.
  - rewrite Rabs_left in Hw by lra.
    pose proof (Hmono b c ltac:(unfold c; lra)).
    pose proof (Hmono c a ltac:(unfold c; lra)).
    pose proof (Hmono (c - tol) b ltac:(unfold c; lra)).
    pose proof (Hmono a (c + tol) ltac:(unfold c; lra)).
    destruct Hsigns as [[Hneg Hpos]|[Hneg Hpos]]; apply Rabs_le; lra.
Qed.

(** With a single subband the two residuals are the same. *)
Lemma find_fermi_global_single_subband (fuel : nat) (m N Te Esb v : R) :
  0 < m -> 0 < Te ->
  find_fermi_global fuel m N Te [Esb] = Return v ->
  bracket_min Te [Esb] < v < bracket_max Te [Esb] /\
  Rabs (residual m N Te [Esb] v) <= population_tolerance (1e-8 * e) m Te [Esb] v.
Proof.
  intros Hm HTe Hrun.
  assert (Hsz : (size [Esb] <= size_t_max)%Z) by discriminate.
  assert (Hres : forall E_F, residual m N Te [Esb] E_F = find_pop Esb E_F m Te - N).
  { intros E_F. unfold residual, total_population. simpl. ring. }
  split.
  - pose proof (find_fermi_global_inside_bracket fuel m N Te [Esb] v Hsz Hrun) as H.
    unfold bracket_min, bracket_max in *. simpl in *.
    assert (0 < kB * Te) by nra.
    rewrite Rmin_left, Rmax_right in H by lra. exact H.
  - apply (find_fermi_global_residual_bound fuel); auto; now rewrite Hres.
Qed.

(** ** Two degenerate subbands and a population below the bracket *)

Lemma exp_monotone (x y : R) : x <= y -> exp x <= exp y.
Proof. intros [H| ->]; [left; now apply exp_increasing|lra]. Qed.

Lemma div_le_bound (x c k : R) : 0 < k -> x <= c * k -> x / k <= c.
Proof.
  intros Hk Hx. apply (Rmult_le_reg_r k); [exact Hk|].
  unfold Rdiv. rewrite Rmult_assoc, Rinv_l, Rmult_1_r by lra. exact Hx.
Qed.

Lemma div_ge_bound (x c k : R) : 0 < k -> c * k <= x -> c <= x / k.
Proof.
  intros Hk Hx. apply (Rmult_le_reg_r k); [exact Hk|].
  unfold Rdiv. rewrite Rmult_assoc, Rinv_l, Rmult_1_r by lra. exact Hx.
Qed.

Lemma exp_neg_100_small : exp (-100) <= / 2.
Proof.
  apply Rle_trans with (exp (-1)); [apply exp_monotone; lra|].
  replace (-1) with (Ropp 1) by lra. rewrite exp_Ropp.
  apply Rinv_le_contravar; [lra|apply exp_1_ge_2].
Qed.

(** The population of a subband 100 kB T above the Fermi energy, in units
    of [rho kB T]. *)
Lemma log1p_exp_neg_100 :
  2 / 3 * exp (-100) <= gsl_log1p (exp (-100)) <= exp (-100).
Proof.
  split; [|apply log1p_exp_le_exp].
  pose proof (log1p_exp_lower (-100)) as H.
  pose proof exp_neg_100_small as Hs. pose proof (exp_pos (-100)) as Hp.
  eapply Rle_trans; [|exact H].
  apply (Rmult_le_reg_r (1 + exp (-100))); [lra|].
  unfold Rdiv. rewrite (Rmult_assoc (exp (-100))), Rinv_l, Rmult_1_r by lra.
  nra.
Qed.

(** The change of [exp] over a window of width [3/200 + 1/100] at [-100]. *)
Lemma exp_window (y1 y2 : R) :
  -100 - 1 / 100 <= y1 -> y2 <= -100 + 3 / 200 ->
  exp y2 - exp y1 <= (200 / 197 - 99 / 100) * exp (-100).
Proof.
  intros H1 H2.
  assert (Hup : exp y2 <= exp (-100) * (200 / 197)).
  { apply Rle_trans with (exp (-100 + 3 / 200)); [now apply exp_monotone|].
    rewrite exp_plus. apply Rmult_le_compat_l; [left; apply exp_pos|].
    eapply Rle_trans; [apply exp_le_inv; lra|]. right. field. }
  assert (Hdown : exp (-100) * (99 / 100) <= exp y1).
  { apply Rle_trans with (exp (-100 + - (1 / 100))); [|apply exp_monotone; lra].
    rewrite exp_plus. apply Rmult_le_compat_l; [left; apply exp_pos|].
    pose proof (exp_ineq1_le (- (1 / 100))). lra. }
  lra.
Qed.

(** * The claims *)

(** C5.  Round trip: for every subband minimum, every positive mass and
    temperature and every Fermi energy within 50 kB T of the subband
    minimum, [find_fermi] applied to the population that [find_pop] gives
    for that Fermi energy is that Fermi energy again, exactly over the reals
    and therefore within the relative tolerance 1e-6. *)
Theorem find_fermi_recovers_fermi_energy (Esb E_F m Te : R) :
  0 < m -> 0 < Te ->
  Esb - 50 * kB * Te <= E_F <= Esb + 50 * kB * Te ->
  find_fermi Esb m (find_pop Esb E_F m Te) Te = E_F /\
  Rabs (find_fermi Esb m (find_pop Esb E_F m Te) Te - E_F) <= 1e-6 * Rabs E_F.
Proof.
  intros Hm HTe _. rewrite find_fermi_find_pop by assumption.
  split; [reflexivity|].
  replace (E_F - E_F) with 0 by ring. rewrite Rabs_R0.
  pose proof (Rabs_pos E_F). lra.
Qed.

(** C6.  For a fixed subband minimum, positive mass and positive
    temperature, [find_pop] is strictly increasing in the Fermi energy. *)
Theorem find_pop_strictly_increasing (Esb md Te E_F1 E_F2 : R) :
  0 < md -> 0 < Te -> E_F1 < E_F2 ->
  find_pop Esb E_F1 md Te < find_pop Esb E_F2 md Te.
Proof. apply find_pop_increasing. Qed.





(** C8.  For every Debye model and every positive temperature,
    [get_internal_energy] returns [3 Na kB T natoms / M] times the Debye
    function D_3 at [T_D / T]; for every temperature that is not positive
    [get_internal_energy] and [get_cp] throw the error for an invalid
    temperature and return nothing. *)
Theorem internal_energy_and_cp_temperature (dm : DebyeModel) (T : R) :
  (0 < T ->
   get_internal_energy dm T =
   Return (3 * Na * kB * T * to_double (_natoms dm) / _M dm
           * gsl_sf_debye_3 (_T_D dm / T))) /\
  (T <= 0 ->
   is_InvalidTemperature (get_internal_energy dm T) /\
   is_InvalidTemperature (get_cp dm T) /\
   ~ returns (get_internal_energy dm T) /\ ~ returns (get_cp dm T)).
Proof.
  unfold get_internal_energy, get_cp. split; intros HT.
  - destruct (Rle_dec T 0); [lra|]. f_equal.
    replace 3.0 with 3 by lra. unfold Rdiv. ring.
  - destruct (Rle_dec T 0); [|lra]. simpl. tauto.
Qed.

(** C9.  [find_fermi_global] reads [E[0]] and [E[E.size()-1]]
    unconditionally; both subscripts are inside every non-empty array and
    outside the empty one, so that the call is an out-of-bounds read exactly
    on the empty array. *)
Theorem find_fermi_global_subscripts (E : valarray) :
  (subscript E 0 = OutOfBounds <-> E = []) /\
  (subscript E (size_t_sub (size E) 1) = OutOfBounds <-> E = []) /\
  (forall fuel m N Te, find_fermi_global fuel m N Te E = OutOfBounds <-> E = []).
Proof.
  destruct E as [|E0 E'] eqn:HE.
  - repeat split; intros; reflexivity.
  - rewrite <- HE. assert (Hne : E <> []) by (subst E; discriminate).
    pose proof (size_nonempty E Hne) as Hpos.
    pose proof (size_t_sub_one_range _ Hpos) as Hlast.
    assert (H0 : subscript E 0 = Return (nth 0 E 0)) by now apply subscript_first.
    assert (H1 : subscript E (size_t_sub (size E) 1) =
                 Return (nth (Z.to_nat (size_t_sub (size E) 1)) E 0))
      by now apply subscript_in_bounds.
    repeat split; try (intros; subst; discriminate); try congruence.
    intros Hrun. exfalso. unfold find_fermi_global in Hrun.
    rewrite H0, H1 in Hrun. cbn [bind] in Hrun. cbv zeta in Hrun.
    destruct (negb _); [|discriminate].
    bisection_cases H; congruence.
Qed.


(** C3, amended.  At a temperature that is not positive the error for an
    invalid temperature is thrown by [get_internal_energy] and [get_cp], and
    by no other temperature-dependent operation: [f_FD], [f_FD_ionised],
    [find_pop], [find_fermi], [get_cp_low_T] and [get_cp_approx] check nothing
    and return a value, and [find_fermi_global] throws no such error. *)
Theorem invalid_temperature_checked_operations (op : operation) (T : R) :
  T <= 0 ->
  (is_InvalidTemperature (call op T) <-> checks_temperature op = true).
Proof.
  intros HT. destruct op; simpl;
    try (split; [intros []|discriminate]).
  - split; [|discriminate]. intros H. now apply find_fermi_global_temperature in H.
  - unfold get_internal_energy. destruct (Rle_dec T 0); [simpl; tauto|lra].
  - unfold get_cp. destruct (Rle_dec T 0); [simpl; tauto|lra].
Qed.

(** C4, amended.  [get_cp_approx] is exactly the high-temperature form
    [3 Na kB natoms / M] above the crossover temperature
    [T_D (5 / (4 pi^4))^(1/3)] and exactly the low-temperature form
    [12 pi^4 Na kB T^3 natoms / (5 T_D^3 M)] at and below it; for a positive
    Debye temperature the two forms have the same value at the crossover, so
    that [get_cp_approx] has no jump there: it is continuous. *)
Theorem get_cp_approx_dispatch (dm : DebyeModel) (T : R) :
  (T_match dm < T ->
   get_cp_approx dm T = 3 * Na * kB * IZR (_natoms dm) / _M dm) /\
  (T <= T_match dm ->
   get_cp_approx dm T =
   12 * PI ^ 4 * Na * kB * T ^ 3 * IZR (_natoms dm) / (5 * _T_D dm ^ 3 * _M dm)) /\
  (0 < _T_D dm ->
   ~ jump_at_T_match dm /\ continuity_pt (get_cp_approx dm) (T_match dm)).
Proof.
  rewrite get_cp_approx_cases. repeat split.
  - intros HT. destruct (Rlt_dec (T_match dm) T); [reflexivity|lra].
  - intros HT. destruct (Rlt_dec (T_match dm) T); [lra|].
    apply get_cp_low_T_closed_form.
  - intros Hjump. apply Hjump. now apply approximations_meet.
  - now apply get_cp_approx_continuous_at_crossover.
Qed.

(** C1, at a failing input.  Two subbands at the same energy and a
    population of 150 rho kB T: the residual of both subbands is negative at
    the lower end of the bracket and positive at its upper end, a change of
    sign, and yet [find_fermi_global] throws, because it takes the two signs
    from the population of the first subband alone. *)
Theorem find_fermi_global_throws_despite_sign_change (fuel : nat) (m Te Esb : R) :
  0 < m -> 0 < Te ->
  let E := [Esb; Esb] in
  let N := 150 * (m / (pi * hBar * hBar)) * (kB * Te) in
  GSL_SIGN (residual m N Te E (bracket_min Te E)) = (-1)%Z /\
  GSL_SIGN (residual m N Te E (bracket_max Te E)) = 1%Z /\
  find_fermi_global fuel m N Te E = Throw NoQuasiFermiEnergyInRange.
Proof.
  intros Hm HTe E N.
  destruct (bracket_pair Te Esb) as [Hmin Hmax].
  destruct (pair_nonempty Esb) as (Hne & Hsz & _ & _).
  set (K := m / (pi * hBar * hBar) * (kB * Te)).
  assert (HK : 0 < K).
  { unfold K. apply Rmult_lt_0_compat; [now apply rho_pos|nra]. }
  assert (Hlo : find_pop Esb (bracket_min Te E) m Te = K * gsl_log1p (exp (-100))).
  { unfold E. rewrite Hmin. now apply find_pop_offset. }
  assert (Hhi : find_pop Esb (bracket_max Te E) m Te = K * gsl_log1p (exp 100)).
  { unfold E. rewrite Hmax. now apply find_pop_offset. }
  assert (HN : N = 150 * K) by (unfold N, K; ring).
  pose proof (log1p_exp_le_exp (-100)) as Hl1.
  assert (Hl2 : exp (-100) < 1) by (apply exp_neg_lt_1; lra).
  pose proof (log1p_exp_ge_arg 100) as Hh1.
  assert (Hh2 : gsl_log1p (exp 100) <= 100 + 1) by (apply log1p_exp_le_succ; lra).
  repeat split.
  - apply GSL_SIGN_neg. unfold residual, E.
    rewrite total_population_pair. fold E. rewrite Hlo, HN. nra.
  - apply GSL_SIGN_nonneg. unfold residual, E.
    rewrite total_population_pair. fold E. rewrite Hhi, HN. nra.
  - rewrite find_fermi_global_nonempty by assumption. cbv zeta.
    replace (nth 0 E 0) with Esb by reflexivity.
    rewrite Hlo, Hhi, HN.
    rewrite !GSL_SIGN_neg by nra. reflexivity.
Qed.

(** Below the precondition of C2, on an ascending ladder.  Two subbands
    at the same energy and a population of one and a half times what the
    first subband holds at the lower end of the bracket: the residual of both
    subbands is positive on the whole bracket, so the bracket holds no
    solution, and yet [find_fermi_global] returns.  The value returned lies
    strictly inside the bracket, but its residual is larger than the change
    of the total population over the energy tolerance on either side of
    it. *)
Lemma find_fermi_global_returns_without_solution (m Te Esb : R) :
  0 < m -> 0 < Te -> 1e-8 * e <= kB * Te / 100 ->
  let E := [Esb; Esb] in
  let N := 1.5 * find_pop Esb (Esb - 100 * kB * Te) m Te in
  (exists fuel v, find_fermi_global fuel m N Te E = Return v) /\
  (forall E_F, bracket_min Te E <= E_F -> 0 < residual m N Te E E_F) /\
  (forall fuel v,
      find_fermi_global fuel m N Te E = Return v ->
      bracket_min Te E < v < bracket_max Te E /\
      population_tolerance (1e-8 * e) m Te E v < Rabs (residual m N Te E v)).
Proof.
  intros Hm HTe Htol E N.
  destruct (bracket_pair Te Esb) as [Hmin Hmax]. fold E in Hmin, Hmax.
  destruct (pair_nonempty Esb) as (Hne & Hsz & Hsz32 & Hsize).
  fold E in Hne, Hsz, Hsz32, Hsize.
  set (kT := kB * Te) in *.
  assert (HkT : 0 < kT) by (unfold kT; nra).
  set (tol := 1e-8 * e) in *.
  assert (Htol0 : 0 < tol) by (unfold tol; lra).
  set (K := m / (pi * hBar * hBar) * kT).
  assert (HK : 0 < K).
  { unfold K. apply Rmult_lt_0_compat; [now apply rho_pos|exact HkT]. }
  set (a0 := bracket_min Te E) in *. set (b0 := bracket_max Te E) in *.
  assert (Ha0 : a0 = Esb - 100 * kT) by (rewrite Hmin; unfold kT; ring).
  assert (Hb0 : b0 = Esb + 100 * kT) by (rewrite Hmax; unfold kT; ring).
  set (u := exp (-100)). set (Lm := gsl_log1p u).
  assert (Hu : 0 < u) by apply exp_pos.
  assert (Hu1 : u < 1) by (apply exp_neg_lt_1; lra).
  destruct log1p_exp_neg_100 as [HLm1 HLm2]. fold u in HLm1, HLm2. fold Lm in HLm1, HLm2.
  assert (Hlo : find_pop Esb a0 m Te = K * Lm).
  { rewrite Hmin. unfold K, Lm, u, kT. now apply find_pop_offset. }
  assert (Hhi : find_pop Esb b0 m Te = K * gsl_log1p (exp 100)).
  { rewrite Hmax. unfold K, kT. now apply find_pop_offset. }
  assert (HN : N = 1.5 * (K * Lm)).
  { unfold N.
    replace (Esb - 100 * kB * Te) with a0 by (rewrite Ha0; unfold kT; ring).
    now rewrite Hlo. }
  pose proof (log1p_exp_ge_arg 100) as Hh1.
  (* the residual of both subbands above the lower end *)
  assert (Hres : forall E_F, a0 <= E_F ->
                 0.5 * (K * Lm) <= residual m N Te E E_F).
  { intros E_F HEF. unfold residual, E. rewrite total_population_pair.
    pose proof (find_pop_monotone Esb m Te a0 E_F Hm HTe HEF) as Hmono.
    rewrite Hlo in Hmono. lra. }
  assert (HKLm : 0 < K * Lm) by nra.
  (* the call enters the loop *)
  assert (Hcall : forall fuel,
             find_fermi_global fuel m N Te E =
             bisection fuel fuel tol m N Te E (-1) a0 b0 ((a0 + b0) / 2)).
  { intros fuel. rewrite find_fermi_global_nonempty by assumption. cbv zeta.
    fold a0 b0 tol. replace (nth 0 E 0) with Esb by reflexivity.
    rewrite Hlo, Hhi.
    rewrite (GSL_SIGN_neg (K * Lm - N)) by lra.
    rewrite (GSL_SIGN_nonneg (K * gsl_log1p (exp 100) - N)) by nra.
    reflexivity. }
  split; [|split].
  - (* it returns *)
    set (n := max_iterations (fabs (b0 - a0)) tol).
    exists (Nat.max n 2).
    rewrite Hcall.
    apply (bisection_terminates tol m N Te E (-1) (Nat.max n 2) Hsz32) with (n := n);
      [rewrite Hsize; lia|lia|reflexivity|].
    apply max_iterations_enough; [exact Htol0|apply Rabs_pos].
  - intros E_F HEF. specialize (Hres E_F HEF). lra.
  - (* the value returned *)
    intros fuel v Hrun. rewrite Hcall in Hrun.
    pose (P := fun a b : R => a = a0 /\ a0 < b <= b0).
    assert (Hstep : forall a b a' b' c',
               P a b -> tol < fabs (b - a) ->
               next_bracket m N Te E (-1) a b ((a + b) / 2) = (a', b', c') ->
               P a' b').
    { intros a b a' b' c' [-> Hb] _ Hnext. unfold next_bracket in Hnext.
      assert (Hmid : a0 <= (a0 + b) / 2) by lra.
      specialize (Hres _ Hmid).
      rewrite GSL_SIGN_nonneg in Hnext by lra. simpl in Hnext.
      injection Hnext as <- <- _. unfold P. split; [reflexivity|lra]. }
    assert (HP : P a0 b0) by (unfold P; split; [reflexivity|lra]).
    destruct (bisection_invariant P tol m N Te E (-1) Hstep fuel fuel a0 b0 _ v
                eq_refl HP Hrun) as (a & b & [-> Hb] & Hw & ->).
    unfold fabs in Hw. rewrite Rabs_pos_eq in Hw by lra.
    split; [lra|].
    set (v := (a0 + b) / 2).
    assert (Hv : a0 < v <= a0 + tol / 2) by (unfold v; lra).
    rewrite Rabs_pos_eq by (specialize (Hres v); lra).
    apply Rlt_le_trans with (0.5 * (K * Lm)); [|apply Hres; lra].
    unfold population_tolerance, E. rewrite !total_population_pair.
    rewrite (find_pop_at Esb (v + tol)), (find_pop_at Esb (v - tol)).
    fold kT K.
    set (y2 := (v + tol - Esb) / kT). set (y1 := (v - tol - Esb) / kT).
    assert (Hy2 : y2 <= -100 + 3 / 200) by (apply div_le_bound; lra).
    assert (Hy1 : -100 - 1 / 100 <= y1) by (apply div_ge_bound; lra).
    assert (Hy12 : y1 <= y2).
    { unfold y1, y2, Rdiv. apply Rmult_le_compat_r; [left; now apply Rinv_0_lt_compat|lra]. }
    pose proof (log1p_exp_diff y1 y2 Hy12) as Hdiff.
    pose proof (exp_window y1 y2 Hy1 Hy2) as Hwin. fold u in Hwin.
    assert (Hbound : gsl_log1p (exp y2) - gsl_log1p (exp y1) < Lm / 4) by lra.
    replace (2 * (K * gsl_log1p (exp y2)) - 2 * (K * gsl_log1p (exp y1)))
      with (2 * K * (gsl_log1p (exp y2) - gsl_log1p (exp y1))) by ring.
    apply Rlt_le_trans with (2 * K * (Lm / 4)); [|lra].
    apply Rmult_lt_compat_l; lra.
Qed.

(** ** The residual at the energy returned *)

(** A population in the middle of the window of a subband at [Esb], for
    arrays that begin and end with that subband. *)
Lemma window_sample (m Te Esb : R) (E : valarray) :
  0 < m -> 0 < Te -> nth 0 E 0 = Esb -> last E 0 = Esb ->
  find_pop Esb (bracket_min Te E) m Te < 50 * (m / (pi * hBar * hBar)) * (kB * Te) /\
  50 * (m / (pi * hBar * hBar)) * (kB * Te) <= find_pop Esb (bracket_max Te E) m Te.
Proof.
  intros Hm HTe H0 Hl. unfold bracket_min, bracket_max. rewrite H0, Hl.
  replace (Esb - 100 * kB * Te) with (Esb + (-100) * kB * Te) by ring.
  rewrite !find_pop_offset by exact HTe.
  set (K := m / (pi * hBar * hBar) * (kB * Te)).
  assert (HK : 0 < K).
  { unfold K. apply Rmult_lt_0_compat; [now apply rho_pos|nra]. }
  replace (50 * (m / (pi * hBar * hBar)) * (kB * Te)) with (50 * K) by (unfold K; ring).
  pose proof (log1p_exp_le_exp (-100)) as Hl1.
  assert (Hl2 : exp (-100) < 1) by (apply exp_neg_lt_1; lra).
  pose proof (log1p_exp_ge_arg 100) as Hh1.
  split; nra.
Qed.

Lemma fold_populations_ge (m Te E_F : R) (E : valarray) :
  0 < m -> 0 < Te ->
  forall acc, acc <= fold_left (fun a Esb => a + find_pop Esb E_F m Te) E acc.
Proof.
  intros Hm HTe. induction E as [|Esb E IH]; intros acc; simpl; [lra|].
  eapply Rle_trans; [|apply IH].
  pose proof (find_pop_pos Esb E_F m Te Hm HTe). lra.
Qed.

Lemma first_population_le_total (m Te E_F : R) (E : valarray) :
  0 < m -> 0 < Te -> E <> [] ->
  find_pop (nth 0 E 0) E_F m Te <= total_population m Te E E_F.
Proof.
  intros Hm HTe HE. destruct E as [|E0 E]; [congruence|].
  unfold total_population. simpl.
  eapply Rle_trans; [|now apply fold_populations_ge]. lra.
Qed.








(** * Further properties of the Fermi statistics *)

Lemma Rmult3_pos (a b c : R) : 0 < a -> 0 < b -> 0 < c -> 0 < a * b * c.
Proof. intros. apply Rmult_lt_0_compat; [apply Rmult_lt_0_compat|]; assumption. Qed.

Lemma Rmult4_pos (a b c d : R) :
  0 < a -> 0 < b -> 0 < c -> 0 < d -> 0 < a * b * c * d.
Proof. intros. apply Rmult_lt_0_compat; [apply Rmult3_pos|]; assumption. Qed.

Lemma f_FD_at (E_F E Te : R) :
  f_FD E_F E Te = / (exp ((E - E_F) / (kB * Te)) + 1).
Proof. unfold f_FD. unfold Rdiv at 1. ring. Qed.

(** X1.  The occupations of two levels at equal distances above and below
    the Fermi energy add up to one; in particular the level at the Fermi
    energy is half occupied. *)
Theorem f_FD_symmetry (E_F d Te : R) :
  Te <> 0 ->
  f_FD E_F (E_F + d) Te + f_FD E_F (E_F - d) Te = 1 /\
  f_FD E_F E_F Te = 1 / 2.
Proof.
  intros HTe. rewrite !f_FD_at.
  assert (HkT : kB * Te <> 0) by (apply Rmult_integral_contrapositive; split; lra).
  replace ((E_F + d - E_F) / (kB * Te)) with (d / (kB * Te)) by (field; split; [exact HTe|lra]).
  replace ((E_F - d - E_F) / (kB * Te)) with (- (d / (kB * Te))) by (field; split; [exact HTe|lra]).
  replace ((E_F - E_F) / (kB * Te)) with 0 by (field; split; [exact HTe|lra]).
  rewrite exp_Ropp, exp_0.
  pose proof (exp_pos (d / (kB * Te))) as Hp.
  split; field; lra.
Qed.

(** X2.  At a positive temperature the occupation lies strictly between 0
    and 1 and decreases strictly with the energy of the level. *)
Theorem f_FD_range_and_decreasing (E_F E1 E2 Te : R) :
  0 < Te -> E1 < E2 ->
  0 < f_FD E_F E2 Te < f_FD E_F E1 Te /\ f_FD E_F E1 Te < 1.
Proof.
  intros HTe HE. rewrite !f_FD_at.
  assert (HkT : 0 < / (kB * Te)) by (apply Rinv_0_lt_compat; nra).
  assert (Hx : (E1 - E_F) / (kB * Te) < (E2 - E_F) / (kB * Te)).
  { unfold Rdiv. apply Rmult_lt_compat_r; lra. }
  pose proof (exp_increasing _ _ Hx) as Hexp.
  pose proof (exp_pos ((E1 - E_F) / (kB * Te))) as Hp1.
  repeat split.
  - apply Rinv_0_lt_compat. lra.
  - apply Rinv_lt_contravar; [nra|lra].
  - apply Rlt_le_trans with (/ 1); [apply Rinv_lt_contravar; lra|rewrite Rinv_1; lra].
Qed.

(** X3.  The ionisation probability with degeneracy 2 is two thirds at the
    Fermi energy, and at every energy it lies strictly between the Fermi
    occupation and 1. *)
Theorem f_FD_ionised_value_and_range (E_F Ed Te : R) :
  Te <> 0 ->
  f_FD_ionised E_F E_F Te = 2 / 3 /\
  f_FD E_F Ed Te < f_FD_ionised E_F Ed Te < 1.
Proof.
  intros HTe. unfold f_FD_ionised. rewrite f_FD_at.
  assert (HkT : kB * Te <> 0) by (apply Rmult_integral_contrapositive; split; lra).
  pose proof (exp_pos ((Ed - E_F) / (kB * Te))) as Hp.
  split; [|split].
  - replace ((E_F - E_F) / (kB * Te)) with 0 by (field; split; [exact HTe|lra]).
    rewrite exp_0. lra.
  - unfold Rdiv at 2. rewrite Rmult_1_l.
    apply Rinv_lt_contravar; [nra|lra].
  - unfold Rdiv at 1. rewrite Rmult_1_l.
    apply Rlt_le_trans with (/ 1); [apply Rinv_lt_contravar; lra|rewrite Rinv_1; lra].
Qed.

(** X4.  The population of a subband changes with the Fermi energy at the
    rate of the density of states times the occupation of the subband
    minimum: the derivative of [find_pop] in [E_F] is
    [md / (pi hBar^2) * f_FD E_F Esb Te]. *)
Theorem find_pop_derivative (Esb E_F md Te : R) :
  0 < Te ->
  derivable_pt_lim (fun x => find_pop Esb x md Te) E_F
                   (md / (pi * hBar * hBar) * f_FD E_F Esb Te).
Proof.
  intros HTe. assert (HkT : 0 < kB * Te) by nra.
  set (h := fun x : R => - (Esb - x) / (kB * Te)).
  assert (Hh : derivable_pt_lim h E_F (/ (kB * Te))).
  { apply derivable_pt_lim_ext with (f := (mult_real_fct (/ (kB * Te)) (id - fct_cte Esb))%F).
    - intros z. unfold h, mult_real_fct, minus_fct, id, fct_cte. field. lra.
    - replace (/ (kB * Te)) with (/ (kB * Te) * (1 - 0)) at 2 by ring.
      apply derivable_pt_lim_scal, derivable_pt_lim_minus;
        [apply derivable_pt_lim_id|apply derivable_pt_lim_const]. }
  assert (Hexp : derivable_pt_lim (comp exp h) E_F (exp (h E_F) * / (kB * Te))).
  { apply derivable_pt_lim_comp; [exact Hh|apply derivable_pt_lim_exp]. }
  assert (H1p : derivable_pt_lim (fct_cte 1 + comp exp h)%F E_F
                                 (0 + exp (h E_F) * / (kB * Te))).
  { apply derivable_pt_lim_plus; [apply derivable_pt_lim_const|exact Hexp]. }
  pose proof (exp_pos (h E_F)) as Hp.
  assert (Hln : derivable_pt_lim (comp ln (fct_cte 1 + comp exp h)%F) E_F
                  (/ (1 + exp (h E_F)) * (0 + exp (h E_F) * / (kB * Te)))).
  { apply derivable_pt_lim_comp; [exact H1p|].
    apply derivable_pt_lim_ln. unfold plus_fct, fct_cte, comp. lra. }
  apply derivable_pt_lim_ext
    with (f := mult_real_fct (md / (pi * hBar * hBar) * (kB * Te))
                             (comp ln (fct_cte 1 + comp exp h)%F)).
  - intros z. unfold find_pop, gsl_log1p, mult_real_fct, comp, plus_fct, fct_cte, h.
    cbv zeta. ring.
  - replace (md / (pi * hBar * hBar) * f_FD E_F Esb Te)
      with (md / (pi * hBar * hBar) * (kB * Te)
            * (/ (1 + exp (h E_F)) * (0 + exp (h E_F) * / (kB * Te)))).
    + apply derivable_pt_lim_scal. exact Hln.
    + rewrite f_FD_at.
      replace ((Esb - E_F) / (kB * Te)) with (- h E_F) by (unfold h; field; lra).
      rewrite exp_Ropp. pose proof pi_pos. field. repeat split; lra.
Qed.

(** X5.  At a positive temperature the population of a subband lies between
    the degenerate limit [rho (E_F - Esb)] and the Boltzmann limit
    [rho kB T exp ((E_F - Esb) / (kB T))], and it grows with the Fermi energy
    no faster than the density of states [rho = md / (pi hBar^2)]. *)
Theorem find_pop_limits (Esb md Te E_F E_F' : R) :
  0 < md -> 0 < Te -> E_F <= E_F' ->
  md / (pi * hBar * hBar) * (E_F - Esb) < find_pop Esb E_F md Te /\
  find_pop Esb E_F md Te <=
  md / (pi * hBar * hBar) * (kB * Te) * exp ((E_F - Esb) / (kB * Te)) /\
  find_pop Esb E_F' md Te - find_pop Esb E_F md Te <=
  md / (pi * hBar * hBar) * (E_F' - E_F).
Proof.
  intros Hmd HTe HE. rewrite !find_pop_at.
  assert (HkT : 0 < kB * Te) by nra.
  pose proof (rho_pos md Hmd) as Hrho.
  set (rho := md / (pi * hBar * hBar)) in *.
  set (y := (E_F - Esb) / (kB * Te)). set (y' := (E_F' - Esb) / (kB * Te)).
  assert (Hy : E_F - Esb = kB * Te * y) by (unfold y; field; lra).
  assert (Hy' : E_F' - E_F = kB * Te * (y' - y)) by (unfold y, y'; field; lra).
  assert (Hyy : y <= y').
  { unfold y, y', Rdiv. apply Rmult_le_compat_r; [left; now apply Rinv_0_lt_compat|lra]. }
  pose proof (log1p_exp_ge_arg y) as Hlow.
  pose proof (log1p_exp_le_exp y) as Hup.
  assert (Hlip : gsl_log1p (exp y') - gsl_log1p (exp y) <= y' - y).
  { unfold gsl_log1p. pose proof (exp_pos y) as Hp. pose proof (exp_pos y') as Hp'.
    assert (Hq : 1 + exp y' <= exp (y' - y) * (1 + exp y)).
    { replace (exp y') with (exp (y' - y) * exp y)
        by (rewrite <- exp_plus; f_equal; ring).
      assert (1 <= exp (y' - y)).
      { rewrite <- exp_0. apply exp_monotone. lra. }
      nra. }
    assert (ln (1 + exp y') <= ln (exp (y' - y) * (1 + exp y))).
    { destruct Hq as [Hq|Hq]; [left; apply ln_increasing; lra|right; now rewrite Hq]. }
    rewrite ln_mult, ln_exp in H by (try apply exp_pos; lra). lra. }
  assert (HK : 0 < rho * (kB * Te)) by (apply Rmult_lt_0_compat; assumption).
  rewrite Hy, Hy'. repeat split.
  - replace (rho * (kB * Te * y)) with (rho * (kB * Te) * y) by ring.
    apply Rmult_lt_compat_l; assumption.
  - apply Rmult_le_compat_l; [lra|exact Hup].
  - replace (rho * (kB * Te * (y' - y))) with (rho * (kB * Te) * (y' - y)) by ring.
    rewrite <- Rmult_minus_distr_l.
    apply Rmult_le_compat_l; [lra|exact Hlip].
Qed.

Lemma find_pop_find_fermi (Esb m N Te : R) :
  0 < m -> 0 < Te -> 0 < N ->
  find_pop Esb (find_fermi Esb m N Te) m Te = N.
Proof.
  intros Hm HTe HN. rewrite find_pop_at.
  unfold find_fermi, log, gsl_expm1, gsl_log1p. cbv zeta.
  assert (HkT : 0 < kB * Te) by nra.
  pose proof pi_pos as Hpi.
  set (a := N * pi * hBar * hBar / (m * kB * Te)).
  assert (Ha : 0 < a).
  { unfold a. apply Rdiv_lt_0_compat;
      [apply Rmult4_pos|apply Rmult3_pos]; assumption. }
  assert (Hexp : 0 < exp a - 1).
  { pose proof (exp_increasing 0 a Ha) as H. rewrite exp_0 in H. lra. }
  replace ((Esb + kB * Te * ln (exp a - 1) - Esb) / (kB * Te))
    with (ln (exp a - 1)) by (field; lra).
  rewrite exp_ln by exact Hexp.
  replace (1 + (exp a - 1)) with (exp a) by ring.
  rewrite ln_exp. unfold a. field. repeat split; lra.
Qed.

(** X6.  For a positive population the Fermi energy that [find_fermi]
    gives puts exactly that population in the subband: [find_pop] undoes
    [find_fermi]. *)
Theorem find_pop_of_find_fermi (Esb m N Te : R) :
  0 < m -> 0 < Te -> 0 < N ->
  find_pop Esb (find_fermi Esb m N Te) m Te = N.
Proof. apply find_pop_find_fermi. Qed.

(** X7.  For positive populations the Fermi energy of a single subband
    grows strictly with the population. *)
Theorem find_fermi_strictly_increasing (Esb m Te N1 N2 : R) :
  0 < m -> 0 < Te -> 0 < N1 -> N1 < N2 ->
  find_fermi Esb m N1 Te < find_fermi Esb m N2 Te.
Proof.
  intros Hm HTe HN1 HN. unfold find_fermi, log, gsl_expm1. cbv zeta.
  assert (HkT : 0 < kB * Te) by nra.
  pose proof pi_pos as Hpi.
  assert (Hden : 0 < / (m * kB * Te)).
  { apply Rinv_0_lt_compat. apply Rmult3_pos; assumption. }
  assert (Hc : 0 < pi * hBar * hBar) by (apply Rmult3_pos; assumption).
  set (a1 := N1 * pi * hBar * hBar / (m * kB * Te)).
  set (a2 := N2 * pi * hBar * hBar / (m * kB * Te)).
  assert (Ha1 : 0 < a1).
  { unfold a1, Rdiv. apply Rmult_lt_0_compat; [|exact Hden].
    replace (N1 * pi * hBar * hBar) with (N1 * (pi * hBar * hBar)) by ring.
    now apply Rmult_lt_0_compat. }
  assert (Ha : a1 < a2).
  { unfold a1, a2, Rdiv. apply Rmult_lt_compat_r; [exact Hden|].
    replace (N1 * pi * hBar * hBar) with (N1 * (pi * hBar * hBar)) by ring.
    replace (N2 * pi * hBar * hBar) with (N2 * (pi * hBar * hBar)) by ring.
    now apply Rmult_lt_compat_r. }
  pose proof (exp_increasing 0 a1 Ha1) as H1. rewrite exp_0 in H1.
  pose proof (exp_increasing a1 a2 Ha) as H2.
  assert (ln (exp a1 - 1) < ln (exp a2 - 1)) by (apply ln_increasing; lra).
  apply Rplus_lt_compat_l, Rmult_lt_compat_l; assumption.
Qed.

(** * Further properties of the multi-subband solver *)

Lemma bracket_ordered (Te : R) (E : valarray) :
  0 < Te -> nth 0 E 0 <= last E 0 -> bracket_min Te E < bracket_max Te E.
Proof. intros HTe HE. unfold bracket_min, bracket_max. nra. Qed.

(** The signs that the code compares, as conditions on the population. *)
Lemma signs_equal_iff (p_min p_max N : R) :
  p_min <= p_max ->
  (GSL_SIGN (p_min - N) = GSL_SIGN (p_max - N) <-> N <= p_min \/ p_max < N).
Proof.
  intros Hp.
  destruct (GSL_SIGN_cases (p_min - N)) as [[H1 ->]|[H1 ->]],
           (GSL_SIGN_cases (p_max - N)) as [[H2 ->]|[H2 ->]];
    split; intros H; try discriminate; try reflexivity; try lra;
    destruct H; lra.
Qed.

Lemma find_fermi_global_throws_eq (fuel : nat) (m N Te : R) (E : valarray) :
  E <> [] -> (size E <= size_t_max)%Z ->
  (find_fermi_global fuel m N Te E = Throw NoQuasiFermiEnergyInRange <->
   GSL_SIGN (find_pop (nth 0 E 0) (bracket_min Te E) m Te - N) =
   GSL_SIGN (find_pop (nth 0 E 0) (bracket_max Te E) m Te - N)).
Proof.
  clear gsl_sf_debye_3 gsl_deriv_forward.
  intros Hne Hmax. rewrite <- (find_fermi_global_throws_iff fuel) by assumption.
  destruct (find_fermi_global fuel m N Te E) as [v|[| |]| |]; simpl;
    split; intros H; try discriminate; try tauto; try reflexivity.
Qed.

(** X8.  On an array whose first subband is not above its last and whose
    last subband is at most 609 kB T above the first (so that the
    exponential at the upper end of the bracket, of at most 709, stays within
    the range of a double), at a positive temperature, [find_fermi_global]
    throws exactly when the population asked for is outside the window that
    the first subband alone spans over the bracket: at most its population at
    the lower end, or more than its population at the upper end. *)
Theorem find_fermi_global_throws_outside_window (fuel : nat) (m N Te : R)
    (E : valarray) :
  0 < m -> 0 < Te -> E <> [] -> (size E <= size_t_max)%Z ->
  nth 0 E 0 <= last E 0 -> last E 0 - nth 0 E 0 <= 609 * kB * Te ->
  (find_fermi_global fuel m N Te E = Throw NoQuasiFermiEnergyInRange <->
   N <= find_pop (nth 0 E 0) (bracket_min Te E) m Te \/
   find_pop (nth 0 E 0) (bracket_max Te E) m Te < N).
Proof.
  intros Hm HTe Hne Hmax Hord _.
  rewrite find_fermi_global_throws_eq by assumption.
  apply signs_equal_iff. apply find_pop_monotone; try assumption.
  left. now apply bracket_ordered.
Qed.

(** X9.  A population that is zero or negative is rejected: at a positive
    temperature, on a ladder whose last subband is at most 609 kB T above
    the first (so that the exponential at the upper end of the bracket stays
    within the range of a double), [find_fermi_global] throws for it. *)
Theorem find_fermi_global_rejects_empty_population (fuel : nat) (m N Te : R)
    (E : valarray) :
  0 < m -> 0 < Te -> E <> [] -> (size E <= size_t_max)%Z ->
  last E 0 - nth 0 E 0 <= 609 * kB * Te -> N <= 0 ->
  find_fermi_global fuel m N Te E = Throw NoQuasiFermiEnergyInRange.
Proof.
  intros Hm HTe Hne Hmax _ HN.
  apply find_fermi_global_throws_eq; try assumption.
  pose proof (find_pop_pos (nth 0 E 0) (bracket_min Te E) m Te Hm HTe).
  pose proof (find_pop_pos (nth 0 E 0) (bracket_max Te E) m Te Hm HTe).
  rewrite !GSL_SIGN_nonneg by lra. reflexivity.
Qed.

Lemma find_fermi_global_terminates (fuel : nat) (m N Te : R) (E : valarray) :
  E <> [] -> (size E < uint_max)%Z ->
  find_pop (nth 0 E 0) (bracket_min Te E) m Te < N ->
  N <= find_pop (nth 0 E 0) (bracket_max Te E) m Te ->
  (size E <= Z.of_nat fuel)%Z ->
  (max_iterations (fabs (bracket_max Te E - bracket_min Te E)) (1e-8 * e) <= fuel)%nat ->
  exists v, find_fermi_global fuel m N Te E = Return v.
Proof.
  intros Hne Hsz Hlo Hhi Hfuel Hiter.
  assert (Hmax : (size E <= size_t_max)%Z).
  { unfold uint_max, size_t_max in *. lia. }
  rewrite find_fermi_global_nonempty by assumption. cbv zeta.
  rewrite GSL_SIGN_neg by lra. rewrite GSL_SIGN_nonneg by lra. simpl.
  apply (bisection_terminates (1e-8 * e) m N Te E (-1) fuel Hsz Hfuel
           (max_iterations (fabs (bracket_max Te E - bracket_min Te E)) (1e-8 * e)));
    [exact Hiter|reflexivity|].
  apply max_iterations_enough; [lra|apply Rabs_pos].
Qed.

(** X10.  At a positive temperature, on a ladder of fewer than [2^32]
    subbands whose last subband is at most 609 kB T above the first (so that
    the exponential at the upper end of the bracket stays within the range
    of a double): when the population asked for is inside the window of the
    first subband (more than its population at the lower end of the bracket,
    at most its population at the upper end), [find_fermi_global] returns a
    value as soon as the fuel covers the number of subbands and
    [ceil (log2 (width / (1e-8 e)))] iterations. *)
Theorem find_fermi_global_returns_inside_window (fuel : nat) (m N Te : R)
    (E : valarray) :
  0 < Te -> last E 0 - nth 0 E 0 <= 609 * kB * Te ->
  E <> [] -> (size E < uint_max)%Z ->
  find_pop (nth 0 E 0) (bracket_min Te E) m Te < N ->
  N <= find_pop (nth 0 E 0) (bracket_max Te E) m Te ->
  (size E <= Z.of_nat fuel)%Z ->
  (max_iterations (fabs (bracket_max Te E - bracket_min Te E)) (1e-8 * e) <= fuel)%nat ->
  exists v, find_fermi_global fuel m N Te E = Return v.
Proof. intros _ _. apply find_fermi_global_terminates. Qed.

Lemma pair_total_below_sample (m Te Esb : R) :
  0 < m -> 0 < Te ->
  total_population m Te [Esb; Esb] (bracket_min Te [Esb; Esb]) <
  50 * (m / (pi * hBar * hBar)) * (kB * Te).
Proof.
  intros Hm HTe. rewrite total_population_pair.
  destruct (bracket_pair Te Esb) as [-> _].
  rewrite find_pop_offset by exact HTe.
  set (K := m / (pi * hBar * hBar) * (kB * Te)).
  assert (HK : 0 < K).
  { unfold K. apply Rmult_lt_0_compat; [now apply rho_pos|nra]. }
  replace (50 * (m / (pi * hBar * hBar)) * (kB * Te)) with (50 * K) by (unfold K; ring).
  pose proof (log1p_exp_le_exp (-100)) as Hl1.
  assert (Hl2 : exp (-100) < 1) by (apply exp_neg_lt_1; lra).
  nra.
Qed.

(** X11.  Whatever the inputs, a value that [find_fermi_global] returns
    lies strictly between the two ends of the initial bracket
    [E[0] - 100 kB T] and [E[last] + 100 kB T]. *)
Theorem find_fermi_global_result_in_bracket (fuel : nat) (m N Te : R)
    (E : valarray) (v : R) :
  (size E <= size_t_max)%Z ->
  find_fermi_global fuel m N Te E = Return v ->
  Rmin (bracket_min Te E) (bracket_max Te E) < v <
  Rmax (bracket_min Te E) (bracket_max Te E).
Proof. apply find_fermi_global_inside_bracket. Qed.

(** X12.  If the population asked for is more than all subbands together
    hold at the lower end of the bracket, then a value that
    [find_fermi_global] returns solves the equation of all subbands up to
    the tolerance: the residual there is at most the change of the total
    population over the energy tolerance [1e-8 e] on either side. *)
Theorem find_fermi_global_solves_total_population (fuel : nat) (m N Te : R)
    (E : valarray) (v : R) :
  0 < m -> 0 < Te -> (size E <= size_t_max)%Z ->
  total_population m Te E (bracket_min Te E) < N ->
  find_fermi_global fuel m N Te E = Return v ->
  Rabs (residual m N Te E v) <= population_tolerance (1e-8 * e) m Te E v.
Proof.
  intros Hm HTe Hmax Hlow Hrun.
  assert (Hne : E <> []) by (intros ->; discriminate).
  pose proof (first_population_le_total m Te (bracket_min Te E) E Hm HTe Hne) as H1.
  pose proof (first_population_le_total m Te (bracket_max Te E) E Hm HTe Hne) as H2.
  assert (Hsmin : GSL_SIGN (find_pop (nth 0 E 0) (bracket_min Te E) m Te - N) = (-1)%Z)
    by (apply GSL_SIGN_neg; lra).
  assert (Hsmax : GSL_SIGN (find_pop (nth 0 E 0) (bracket_max Te E) m Te - N) = 1%Z).
  { destruct (GSL_SIGN_cases (find_pop (nth 0 E 0) (bracket_max Te E) m Te - N))
      as [[_ Hs]|[_ Hs]]; [exact Hs|].
    exfalso.
    assert (Hthrow : find_fermi_global fuel m N Te E = Throw NoQuasiFermiEnergyInRange)
      by (apply find_fermi_global_throws_eq; [assumption|assumption|congruence]).
    congruence. }
  apply (find_fermi_global_residual_bound fuel); try assumption.
  - rewrite Hsmin. apply GSL_SIGN_neg. unfold residual. lra.
  - rewrite Hsmax. apply GSL_SIGN_nonneg. unfold residual.
    assert (0 <= find_pop (nth 0 E 0) (bracket_max Te E) m Te - N).
    { destruct (GSL_SIGN_cases (find_pop (nth 0 E 0) (bracket_max Te E) m Te - N))
        as [[Hge _]|[_ Hs]]; [exact Hge|congruence]. }
    lra.
Qed.

(** X13.  With a single subband the bisection agrees with the closed form:
    a value that [find_fermi_global] returns is within half the tolerance
    [1e-8 e] of [find_fermi]. *)
Theorem find_fermi_global_agrees_with_find_fermi (fuel : nat) (m N Te Esb v : R) :
  0 < m -> 0 < Te ->
  find_fermi_global fuel m N Te [Esb] = Return v ->
  Rabs (v - find_fermi Esb m N Te) <= 1e-8 * e / 2.
Proof.
  intros Hm HTe Hrun.
  assert (Hne : [Esb] <> []) by discriminate.
  assert (Hsz : (size [Esb] <= size_t_max)%Z) by discriminate.
  assert (HkT : 0 < kB * Te) by nra.
  set (pop := fun x => find_pop Esb x m Te).
  assert (Hg : forall x, residual m N Te [Esb] x = pop x - N).
  { intros x. unfold residual, total_population, pop. simpl. ring. }
  assert (Hinc : forall x y, x < y -> pop x < pop y).
  { intros x y Hxy. now apply find_pop_increasing. }
  rewrite find_fermi_global_nonempty in Hrun by assumption. cbv zeta in Hrun.
  set (a0 := bracket_min Te [Esb]) in *. set (b0 := bracket_max Te [Esb]) in *.
  assert (Hab : a0 < b0) by (unfold a0, b0, bracket_min, bracket_max; simpl; lra).
  replace (nth 0 [Esb] 0) with Esb in Hrun by reflexivity. fold (pop a0) (pop b0) in Hrun.
  pose proof (Hinc a0 b0 Hab) as Hpab.
  destruct (GSL_SIGN_cases (pop a0 - N)) as [[Ha Hsa]|[Ha Hsa]];
    destruct (GSL_SIGN_cases (pop b0 - N)) as [[Hb Hsb]|[Hb Hsb]];
    rewrite Hsa, Hsb in Hrun; simpl in Hrun; try discriminate; try lra.
  assert (HN : 0 < N).
  { pose proof (find_pop_pos Esb a0 m Te Hm HTe). unfold pop in Ha. lra. }
  set (r := find_fermi Esb m N Te).
  assert (Hr : pop r = N) by (unfold pop, r; now apply find_pop_find_fermi).
  pose (P := fun a b : R => pop a < N /\ N <= pop b).
  assert (Hstep : forall a b a' b' c',
             P a b -> 1e-8 * e < fabs (b - a) ->
             next_bracket m N Te [Esb] (-1) a b ((a + b) / 2) = (a', b', c') ->
             P a' b').
  { intros a b a' b' c' [Hpa Hpb] _ Hnext. unfold next_bracket in Hnext.
    rewrite Hg in Hnext.
    destruct (GSL_SIGN_cases (pop ((a + b) / 2) - N)) as [[Hc Hs]|[Hc Hs]];
      rewrite Hs in Hnext; simpl in Hnext; injection Hnext as <- <- _;
      unfold P; split; lra. }
  assert (HP : P a0 b0) by (unfold P; split; lra).
  destruct (bisection_invariant P _ m N Te [Esb] (-1) Hstep fuel fuel a0 b0 _ v
              eq_refl HP Hrun) as (a & b & [Hpa Hpb] & Hw & ->).
  assert (Har : a < r).
  { destruct (Rlt_le_dec a r) as [H|H]; [exact H|]. exfalso.
    destruct H as [H|H]; [apply Hinc in H; lra|subst a; lra]. }
  assert (Hrb : r <= b).
  { destruct (Rle_lt_dec r b) as [H|H]; [exact H|]. exfalso.
    apply Hinc in H. lra. }
  unfold fabs in Hw. rewrite Rabs_pos_eq in Hw by lra.
  apply Rabs_le. lra.
Qed.

(** X14.  The inner loop adds the populations of all subbands when the
    array has fewer than [2^32] elements and the fuel covers them; on an
    array of [2^32] elements or more its [unsigned int] counter wraps before
    it reaches the [size_t] bound and the loop never ends. *)
Theorem sum_populations_result (fuel : nat) (m Te : R) (E : valarray) (E_mid : R) :
  sum_populations fuel m Te E E_mid 0 0 =
  if ((size E <? uint_max) && (size E <=? Z.of_nat fuel))%Z
  then Return (total_population m Te E E_mid)
  else OutOfFuel.
Proof. apply sum_populations_cases. Qed.

(** * Further properties of the Debye model *)

Hypothesis Na_pos : 0 < Na.

Lemma cube_increasing (x y : R) : x < y -> x ^ 3 < y ^ 3.
Proof.
  intros Hxy.
  assert (Hq : 0 < x * x + x * y + y * y).
  { destruct (Req_dec y 0) as [->|Hy].
    - assert (0 < x * x) by nra. nra.
    - assert (0 < y * y) by (destruct (Rdichotomy _ _ Hy); nra).
      pose proof (Rle_0_sqr (x + y / 2)) as Hsq. unfold Rsqr in Hsq.
      replace (x * x + x * y + y * y)
        with ((x + y / 2) * (x + y / 2) + 3 / 4 * (y * y)) by field.
      lra. }
  assert (y ^ 3 - x ^ 3 = (y - x) * (x * x + x * y + y * y)) by ring.
  assert (0 < (y - x) * (x * x + x * y + y * y)) by (apply Rmult_lt_0_compat; lra).
  lra.
Qed.

Lemma get_cp_low_T_cubic (dm : DebyeModel) (T : R) :
  get_cp_low_T dm T = low_T_factor dm * T ^ 3.
Proof.
  rewrite get_cp_low_T_closed_form. unfold low_T_factor, Rdiv. ring.
Qed.

Lemma low_T_factor_pos (dm : DebyeModel) :
  0 < _T_D dm -> 0 < _M dm -> (0 < _natoms dm)%Z -> 0 < low_T_factor dm.
Proof.
  intros HTD HM Hn. unfold low_T_factor.
  apply IZR_lt in Hn. pose proof PI_RGT_0 as Hpi.
  assert (0 < PI ^ 4) by (apply pow_lt; exact Hpi).
  assert (0 < _T_D dm ^ 3) by (apply pow_lt; exact HTD).
  apply Rdiv_lt_0_compat.
  - apply Rmult_lt_0_compat; [|exact Hn].
    apply Rmult4_pos; lra.
  - apply Rmult3_pos; lra.
Qed.

Lemma get_cp_low_T_increasing (dm : DebyeModel) (T1 T2 : R) :
  0 < _T_D dm -> 0 < _M dm -> (0 < _natoms dm)%Z -> T1 < T2 ->
  get_cp_low_T dm T1 < get_cp_low_T dm T2.
Proof.
  intros HTD HM Hn HT. rewrite !get_cp_low_T_cubic.
  apply Rmult_lt_compat_l; [now apply low_T_factor_pos|now apply cube_increasing].
Qed.

Lemma get_cp_approx_is_min (dm : DebyeModel) (T : R) :
  0 < _T_D dm -> 0 < _M dm -> (0 < _natoms dm)%Z ->
  get_cp_approx dm T = Rmin (get_cp_low_T dm T) (get_cp_high_T dm).
Proof.
  intros HTD HM Hn. rewrite get_cp_approx_cases.
  pose proof (approximations_meet dm HTD) as Hmeet.
  destruct (Rlt_dec (T_match dm) T) as [HT|HT].
  - pose proof (get_cp_low_T_increasing dm _ _ HTD HM Hn HT).
    rewrite Rmin_right by lra. reflexivity.
  - assert (HT' : T <= T_match dm) by lra.
    rewrite Rmin_left; [reflexivity|].
    destruct HT' as [HT'| ->]; [|lra].
    pose proof (get_cp_low_T_increasing dm _ _ HTD HM Hn HT'). lra.
Qed.

(** X15.  For a model with positive Debye temperature, molar mass and atom
    count, [get_cp_approx] is the smaller of the low-temperature and the
    high-temperature form at every temperature. *)
Theorem get_cp_approx_smaller_form (dm : DebyeModel) (T : R) :
  0 < _T_D dm -> 0 < _M dm -> (0 < _natoms dm)%Z ->
  get_cp_approx dm T = Rmin (get_cp_low_T dm T) (get_cp_high_T dm).
Proof. apply get_cp_approx_is_min. Qed.

(** X16.  For such a model [get_cp_approx] never decreases with the
    temperature, and from zero temperature on it lies between 0 and the
    Dulong-Petit value [get_cp_high_T]. *)
Theorem get_cp_approx_monotone_and_bounded (dm : DebyeModel) (T1 T2 : R) :
  0 < _T_D dm -> 0 < _M dm -> (0 < _natoms dm)%Z ->
  0 <= T1 -> T1 <= T2 ->
  0 <= get_cp_approx dm T1 /\
  get_cp_approx dm T1 <= get_cp_approx dm T2 /\
  get_cp_approx dm T2 <= get_cp_high_T dm.
Proof.
  intros HTD HM Hn HT1 HT.
  rewrite !get_cp_approx_is_min by assumption.
  assert (Hlow : get_cp_low_T dm T1 <= get_cp_low_T dm T2).
  { destruct HT as [HT| ->]; [left; now apply get_cp_low_T_increasing|lra]. }
  assert (H0 : 0 <= get_cp_low_T dm T1).
  { rewrite get_cp_low_T_cubic. pose proof (low_T_factor_pos dm HTD HM Hn).
    assert (0 <= T1 ^ 3) by (apply pow_le; exact HT1). nra. }
  assert (Hhigh : 0 < get_cp_high_T dm).
  { rewrite <- (approximations_meet dm HTD), get_cp_low_T_cubic.
    apply Rmult_lt_0_compat; [now apply low_T_factor_pos|].
    apply pow_lt. unfold T_match. apply Rmult_lt_0_compat; [exact HTD|].
    unfold Rpower. apply exp_pos. }
  repeat split.
  - apply Rmin_glb; lra.
  - apply Rmin_glb; [eapply Rle_trans; [apply Rmin_l|exact Hlow]|apply Rmin_r].
  - apply Rmin_r.
Qed.

(** X17.  The approximations check no temperature: for such a model and a
    negative temperature [get_cp_low_T] and [get_cp_approx] return the same
    negative value, where [get_cp] throws. *)
Theorem get_cp_approx_negative_temperature (dm : DebyeModel) (T : R) :
  0 < _T_D dm -> 0 < _M dm -> (0 < _natoms dm)%Z -> T < 0 ->
  get_cp_approx dm T = get_cp_low_T dm T /\
  get_cp_low_T dm T < 0 /\
  get_cp dm T = Throw (CannotFindSpecificHeat T).
Proof.
  intros HTD HM Hn HT.
  assert (Hneg : get_cp_low_T dm T < 0).
  { pose proof (get_cp_low_T_increasing dm T 0 HTD HM Hn HT) as H.
    rewrite (get_cp_low_T_cubic dm 0) in H.
    replace (low_T_factor dm * 0 ^ 3) with 0 in H by ring. exact H. }
  repeat split; [|exact Hneg|].
  - rewrite get_cp_approx_cases.
    destruct (Rlt_dec (T_match dm) T) as [H|H]; [|reflexivity].
    exfalso. assert (0 < T_match dm); [|lra].
    unfold T_match. apply Rmult_lt_0_compat; [exact HTD|].
    unfold Rpower. apply exp_pos.
  - unfold get_cp. destruct (Rle_dec T 0); [reflexivity|lra].
Qed.


End QWWAD.

(** * Instances at the SI values of the constants *)

Lemma kB_SI_pos : 0 < kB_SI.
Proof. unfold kB_SI. lra. Qed.

Lemma hBar_SI_pos : 0 < hBar_SI.
Proof. unfold hBar_SI. lra. Qed.

Lemma e_SI_pos : 0 < e_SI.
Proof. unfold e_SI. lra. Qed.

Lemma m_GaAs_pos : 0 < m_GaAs.
Proof. unfold m_GaAs. lra. Qed.

Lemma T_match_aluminium : 0 < T_match aluminium < 428.
Proof.
  unfold T_match, aluminium. cbn [_T_D].
  pose proof crossover_ratio_pos as Hpos.
  assert (Hlt : 5 / (4 * PI ^ 4) < 1).
  { pose proof PI_RGT_0. pose proof PI2_3_2 as H32. unfold PI2 in H32.
    assert (3 < PI) by lra.
    assert (9 < PI * PI) by nra.
    assert (81 < PI ^ 4) by (simpl; nra).
    apply (Rmult_lt_reg_r (4 * PI ^ 4)); [lra|].
    unfold Rdiv. rewrite Rmult_assoc, Rinv_l by lra. lra. }
  assert (Hpow : 0 < Rpower (5 / (4 * PI ^ 4)) (1 / 3) < 1).
  { unfold Rpower. split; [apply exp_pos|].
    assert (ln (5 / (4 * PI ^ 4)) < 0) by (rewrite <- ln_1; now apply ln_increasing).
    apply Rlt_le_trans with (exp 0); [apply exp_increasing; lra|rewrite exp_0; lra]. }
  nra.
Qed.

Lemma find_fermi_recovers_fermi_energy_witness :
  find_fermi kB_SI hBar_SI 0 m_GaAs (find_pop kB_SI hBar_SI 0 1e-21 m_GaAs 300) 300
  = 1e-21.
Proof.
  apply (find_fermi_recovers_fermi_energy kB_SI hBar_SI kB_SI_pos hBar_SI_pos
           0 1e-21 m_GaAs 300 m_GaAs_pos).
  - lra.
  - unfold kB_SI. lra.
Defined.

Lemma find_pop_strictly_increasing_witness :
  find_pop kB_SI hBar_SI 0 0 m_GaAs 300 < find_pop kB_SI hBar_SI 0 1e-21 m_GaAs 300.
Proof.
  apply (find_pop_strictly_increasing kB_SI hBar_SI kB_SI_pos hBar_SI_pos
           0 m_GaAs 300 0 1e-21 m_GaAs_pos); lra.
Defined.

Lemma internal_energy_and_cp_temperature_witness :
  get_internal_energy kB_SI Na_SI debye_3_unit aluminium 300 =
  Return (3 * Na_SI * kB_SI * 300 * to_double (_natoms aluminium) / _M aluminium
          * debye_3_unit (_T_D aluminium / 300)) /\
  is_InvalidTemperature (get_cp kB_SI Na_SI debye_3_unit forward_difference aluminium 0).
Proof.
  split.
  - apply (internal_energy_and_cp_temperature kB_SI Na_SI debye_3_unit
             forward_difference aluminium 300). lra.
  - apply (internal_energy_and_cp_temperature kB_SI Na_SI debye_3_unit
             forward_difference aluminium 0). lra.
Defined.

Lemma find_fermi_global_subscripts_witness :
  subscript [] 0 = OutOfBounds /\
  find_fermi_global kB_SI hBar_SI e_SI 10 m_GaAs 1e15 300 [] = OutOfBounds.
Proof.
  split.
  - apply (find_fermi_global_subscripts kB_SI hBar_SI e_SI []). reflexivity.
  - apply (find_fermi_global_subscripts kB_SI hBar_SI e_SI []). reflexivity.
Defined.

Lemma invalid_temperature_checked_operations_witness :
  is_InvalidTemperature
    (call kB_SI hBar_SI e_SI Na_SI debye_3_unit forward_difference
          (op_get_cp aluminium) 0).
Proof.
  apply (invalid_temperature_checked_operations kB_SI hBar_SI e_SI Na_SI
           debye_3_unit forward_difference (op_get_cp aluminium) 0).
  - lra.
  - reflexivity.
Defined.

(** C3 as stated fails: [f_FD] at temperature zero throws nothing. *)
Lemma f_FD_zero_temperature_no_error :
  ~ (0 <= 0 ->
     is_InvalidTemperature
       (call kB_SI hBar_SI e_SI Na_SI debye_3_unit forward_difference
             (op_f_FD 0 0) 0)).
Proof. intros H. apply H. lra. Qed.

Lemma get_cp_approx_dispatch_witness :
  get_cp_approx kB_SI Na_SI aluminium 500 =
  3 * Na_SI * kB_SI * IZR (_natoms aluminium) / _M aluminium /\
  get_cp_approx kB_SI Na_SI aluminium 0 =
  12 * PI ^ 4 * Na_SI * kB_SI * 0 ^ 3 * IZR (_natoms aluminium)
  / (5 * _T_D aluminium ^ 3 * _M aluminium) /\
  continuity_pt (get_cp_approx kB_SI Na_SI aluminium) (T_match aluminium).
Proof.
  pose proof T_match_aluminium as HT.
  repeat split.
  - apply (get_cp_approx_dispatch kB_SI Na_SI aluminium 500). lra.
  - apply (get_cp_approx_dispatch kB_SI Na_SI aluminium 0). lra.
  - apply (get_cp_approx_dispatch kB_SI Na_SI aluminium 0). simpl. lra.
Defined.

(** C4 as stated fails: for the aluminium-like model the two one-sided
    values of [get_cp_approx] at the crossover are equal, there is no jump. *)
Lemma aluminium_no_jump :
  ~ jump_at_T_match kB_SI Na_SI aluminium /\
  continuity_pt (get_cp_approx kB_SI Na_SI aluminium) (T_match aluminium).
Proof.
  assert (HTD : 0 < _T_D aluminium) by (simpl; lra).
  split.
  - intros Hjump. apply Hjump. now apply approximations_meet.
  - now apply get_cp_approx_continuous_at_crossover.
Qed.

Lemma find_fermi_global_throws_despite_sign_change_witness :
  let E := [0; 0] in
  let N := 150 * (m_GaAs / (pi * hBar_SI * hBar_SI)) * (kB_SI * 4) in
  GSL_SIGN (residual kB_SI hBar_SI m_GaAs N 4 E (bracket_min kB_SI 4 E)) = (-1)%Z /\
  GSL_SIGN (residual kB_SI hBar_SI m_GaAs N 4 E (bracket_max kB_SI 4 E)) = 1%Z /\
  find_fermi_global kB_SI hBar_SI e_SI 100 m_GaAs N 4 E =
  Throw NoQuasiFermiEnergyInRange.
Proof.
  apply (find_fermi_global_throws_despite_sign_change kB_SI hBar_SI e_SI
           kB_SI_pos hBar_SI_pos 100 m_GaAs 4 0 m_GaAs_pos).
  lra.
Defined.

Lemma find_fermi_global_returns_without_solution_witness :
  let E := [0; 0] in
  let N := 1.5 * find_pop kB_SI hBar_SI 0 (0 - 100 * kB_SI * 300) m_GaAs 300 in
  (exists fuel v, find_fermi_global kB_SI hBar_SI e_SI fuel m_GaAs N 300 E = Return v) /\
  (forall E_F, bracket_min kB_SI 300 E <= E_F ->
               0 < residual kB_SI hBar_SI m_GaAs N 300 E E_F) /\
  (forall fuel v,
      find_fermi_global kB_SI hBar_SI e_SI fuel m_GaAs N 300 E = Return v ->
      bracket_min kB_SI 300 E < v < bracket_max kB_SI 300 E /\
      population_tolerance kB_SI hBar_SI (1e-8 * e_SI) m_GaAs 300 E v <
      Rabs (residual kB_SI hBar_SI m_GaAs N 300 E v)).
Proof.
  apply (find_fermi_global_returns_without_solution kB_SI hBar_SI e_SI
           kB_SI_pos hBar_SI_pos e_SI_pos m_GaAs 300 0 m_GaAs_pos).
  - lra.
  - unfold e_SI, kB_SI. lra.
Defined.

(** * Instances of the further properties *)

Lemma Na_SI_pos : 0 < Na_SI.
Proof. unfold Na_SI. lra. Qed.

Lemma aluminium_positive :
  0 < _T_D aluminium /\ 0 < _M aluminium /\ (0 < _natoms aluminium)%Z.
Proof. unfold aluminium. simpl. repeat split; lra || reflexivity. Qed.

(** A run of the solver that returns: two subbands at zero energy at 300 K
    and a population in the middle of the window. *)
Lemma pair_run_returns :
  let E := [0; 0] in
  let N := 50 * (m_GaAs / (pi * hBar_SI * hBar_SI)) * (kB_SI * 300) in
  let fuel :=
    Nat.max (max_iterations (fabs (bracket_max kB_SI 300 E - bracket_min kB_SI 300 E))
                            (1e-8 * e_SI)) 2 in
  exists v, find_fermi_global kB_SI hBar_SI e_SI fuel m_GaAs N 300 E = Return v.
Proof.
  intros E N fuel.
  destruct (window_sample kB_SI hBar_SI kB_SI_pos hBar_SI_pos m_GaAs 300 0 E
              m_GaAs_pos ltac:(lra) eq_refl eq_refl) as [Hlo Hhi].
  apply (find_fermi_global_terminates kB_SI hBar_SI e_SI e_SI_pos fuel m_GaAs N 300 E);
    try assumption.
  - discriminate.
  - reflexivity.
  - unfold fuel, E, size. simpl length. lia.
  - unfold fuel. lia.
Qed.

Lemma single_run_returns :
  let N := 50 * (m_GaAs / (pi * hBar_SI * hBar_SI)) * (kB_SI * 300) in
  let fuel :=
    Nat.max (max_iterations (fabs (bracket_max kB_SI 300 [0] - bracket_min kB_SI 300 [0]))
                            (1e-8 * e_SI)) 1 in
  exists v, find_fermi_global kB_SI hBar_SI e_SI fuel m_GaAs N 300 [0] = Return v.
Proof.
  intros N fuel.
  destruct (window_sample kB_SI hBar_SI kB_SI_pos hBar_SI_pos m_GaAs 300 0 [0]
              m_GaAs_pos ltac:(lra) eq_refl eq_refl) as [Hlo Hhi].
  apply (find_fermi_global_terminates kB_SI hBar_SI e_SI e_SI_pos fuel m_GaAs N 300 [0]);
    try assumption.
  - discriminate.
  - reflexivity.
  - unfold fuel, size. simpl length. lia.
  - unfold fuel. lia.
Qed.

Lemma f_FD_symmetry_witness :
  f_FD kB_SI 0 (0 + 1e-21) 300 + f_FD kB_SI 0 (0 - 1e-21) 300 = 1.
Proof.
  apply (f_FD_symmetry kB_SI kB_SI_pos 0 1e-21 300).
  apply Rgt_not_eq. lra.
Defined.

Lemma f_FD_range_and_decreasing_witness :
  0 < f_FD kB_SI 0 1e-21 300 < f_FD kB_SI 0 0 300.
Proof.
  apply (f_FD_range_and_decreasing kB_SI kB_SI_pos 0 0 1e-21 300); lra.
Defined.

Lemma f_FD_ionised_value_and_range_witness :
  f_FD_ionised kB_SI 0 0 300 = 2 / 3.
Proof.
  apply (f_FD_ionised_value_and_range kB_SI kB_SI_pos 0 0 300).
  apply Rgt_not_eq. lra.
Defined.

Lemma find_pop_derivative_witness :
  derivable_pt_lim (fun x => find_pop kB_SI hBar_SI 0 x m_GaAs 300) 0
                   (m_GaAs / (pi * hBar_SI * hBar_SI) * f_FD kB_SI 0 0 300).
Proof.
  apply (find_pop_derivative kB_SI hBar_SI kB_SI_pos hBar_SI_pos 0 0 m_GaAs 300).
  lra.
Defined.

Lemma find_pop_limits_witness :
  find_pop kB_SI hBar_SI 0 1e-21 m_GaAs 300 - find_pop kB_SI hBar_SI 0 0 m_GaAs 300 <=
  m_GaAs / (pi * hBar_SI * hBar_SI) * (1e-21 - 0).
Proof.
  apply (find_pop_limits kB_SI hBar_SI kB_SI_pos hBar_SI_pos 0 m_GaAs 300 0 1e-21
           m_GaAs_pos); lra.
Defined.

Lemma find_pop_of_find_fermi_witness :
  find_pop kB_SI hBar_SI 0 (find_fermi kB_SI hBar_SI 0 m_GaAs 1e15 300) m_GaAs 300
  = 1e15.
Proof.
  apply (find_pop_of_find_fermi kB_SI hBar_SI kB_SI_pos hBar_SI_pos 0 m_GaAs 1e15 300
           m_GaAs_pos); lra.
Defined.

Lemma find_fermi_strictly_increasing_witness :
  find_fermi kB_SI hBar_SI 0 m_GaAs 1e15 300 < find_fermi kB_SI hBar_SI 0 m_GaAs 2e15 300.
Proof.
  apply (find_fermi_strictly_increasing kB_SI hBar_SI kB_SI_pos hBar_SI_pos 0 m_GaAs 300
           1e15 2e15 m_GaAs_pos); lra.
Defined.

Lemma find_fermi_global_throws_outside_window_witness :
  find_fermi_global kB_SI hBar_SI e_SI 100 m_GaAs 1e30 300 [0; 1e-20] =
  Throw NoQuasiFermiEnergyInRange <->
  1e30 <= find_pop kB_SI hBar_SI (nth 0 [0; 1e-20] 0)
                   (bracket_min kB_SI 300 [0; 1e-20]) m_GaAs 300 \/
  find_pop kB_SI hBar_SI (nth 0 [0; 1e-20] 0)
           (bracket_max kB_SI 300 [0; 1e-20]) m_GaAs 300 < 1e30.
Proof.
  apply (find_fermi_global_throws_outside_window kB_SI hBar_SI e_SI kB_SI_pos
           hBar_SI_pos 100 m_GaAs 1e30 300 [0; 1e-20] m_GaAs_pos).
  - lra.
  - discriminate.
  - discriminate.
  - simpl. lra.
  - simpl. unfold kB_SI. lra.
Defined.

Lemma find_fermi_global_rejects_empty_population_witness :
  find_fermi_global kB_SI hBar_SI e_SI 100 m_GaAs 0 300 [0; 1e-20] =
  Throw NoQuasiFermiEnergyInRange.
Proof.
  apply (find_fermi_global_rejects_empty_population kB_SI hBar_SI e_SI kB_SI_pos
           hBar_SI_pos 100 m_GaAs 0 300 [0; 1e-20] m_GaAs_pos).
  - lra.
  - discriminate.
  - discriminate.
  - simpl. unfold kB_SI. lra.
  - lra.
Defined.

Lemma find_fermi_global_returns_inside_window_witness :
  let E := [0; 0] in
  let N := 50 * (m_GaAs / (pi * hBar_SI * hBar_SI)) * (kB_SI * 300) in
  let fuel :=
    Nat.max (max_iterations (fabs (bracket_max kB_SI 300 E - bracket_min kB_SI 300 E))
                            (1e-8 * e_SI)) 2 in
  exists v, find_fermi_global kB_SI hBar_SI e_SI fuel m_GaAs N 300 E = Return v.
Proof.
  intros E N fuel.
  destruct (window_sample kB_SI hBar_SI kB_SI_pos hBar_SI_pos m_GaAs 300 0 E
              m_GaAs_pos ltac:(lra) eq_refl eq_refl) as [Hlo Hhi].
  apply (find_fermi_global_returns_inside_window kB_SI hBar_SI e_SI e_SI_pos fuel
           m_GaAs N 300 E); try assumption.
  - lra.
  - unfold E. simpl. pose proof kB_SI_pos. lra.
  - discriminate.
  - reflexivity.
  - unfold fuel, E, size. simpl length. lia.
  - unfold fuel. lia.
Defined.

Lemma find_fermi_global_result_in_bracket_witness :
  let E := [0; 0] in
  let N := 50 * (m_GaAs / (pi * hBar_SI * hBar_SI)) * (kB_SI * 300) in
  let fuel :=
    Nat.max (max_iterations (fabs (bracket_max kB_SI 300 E - bracket_min kB_SI 300 E))
                            (1e-8 * e_SI)) 2 in
  exists v,
    find_fermi_global kB_SI hBar_SI e_SI fuel m_GaAs N 300 E = Return v /\
    Rmin (bracket_min kB_SI 300 E) (bracket_max kB_SI 300 E) < v <
    Rmax (bracket_min kB_SI 300 E) (bracket_max kB_SI 300 E).
Proof.
  intros E N fuel. destruct pair_run_returns as [v Hrun].
  exists v. split; [exact Hrun|].
  apply (find_fermi_global_result_in_bracket kB_SI hBar_SI e_SI fuel m_GaAs N 300 E v);
    [discriminate|exact Hrun].
Defined.

Lemma find_fermi_global_solves_total_population_witness :
  let E := [0; 0] in
  let N := 50 * (m_GaAs / (pi * hBar_SI * hBar_SI)) * (kB_SI * 300) in
  let fuel :=
    Nat.max (max_iterations (fabs (bracket_max kB_SI 300 E - bracket_min kB_SI 300 E))
                            (1e-8 * e_SI)) 2 in
  exists v,
    find_fermi_global kB_SI hBar_SI e_SI fuel m_GaAs N 300 E = Return v /\
    Rabs (residual kB_SI hBar_SI m_GaAs N 300 E v) <=
    population_tolerance kB_SI hBar_SI (1e-8 * e_SI) m_GaAs 300 E v.
Proof.
  intros E N fuel. destruct pair_run_returns as [v Hrun].
  exists v. split; [exact Hrun|].
  apply (find_fermi_global_solves_total_population kB_SI hBar_SI e_SI kB_SI_pos
           hBar_SI_pos fuel m_GaAs N 300 E v m_GaAs_pos); try exact Hrun.
  - lra.
  - discriminate.
  - apply (pair_total_below_sample kB_SI hBar_SI kB_SI_pos hBar_SI_pos m_GaAs 300 0
             m_GaAs_pos). lra.
Defined.

Lemma find_fermi_global_agrees_with_find_fermi_witness :
  let N := 50 * (m_GaAs / (pi * hBar_SI * hBar_SI)) * (kB_SI * 300) in
  let fuel :=
    Nat.max (max_iterations (fabs (bracket_max kB_SI 300 [0] - bracket_min kB_SI 300 [0]))
                            (1e-8 * e_SI)) 1 in
  exists v,
    find_fermi_global kB_SI hBar_SI e_SI fuel m_GaAs N 300 [0] = Return v /\
    Rabs (v - find_fermi kB_SI hBar_SI 0 m_GaAs N 300) <= 1e-8 * e_SI / 2.
Proof.
  intros N fuel. destruct single_run_returns as [v Hrun].
  exists v. split; [exact Hrun|].
  apply (find_fermi_global_agrees_with_find_fermi kB_SI hBar_SI e_SI kB_SI_pos
           hBar_SI_pos fuel m_GaAs N 300 0 v m_GaAs_pos); [lra|exact Hrun].
Defined.

Lemma get_cp_approx_smaller_form_witness :
  get_cp_approx kB_SI Na_SI aluminium 300 =
  Rmin (get_cp_low_T kB_SI Na_SI aluminium 300) (get_cp_high_T kB_SI Na_SI aluminium).
Proof.
  destruct aluminium_positive as (HTD & HM & Hn).
  apply (get_cp_approx_smaller_form kB_SI Na_SI kB_SI_pos Na_SI_pos aluminium 300);
    assumption.
Defined.

Lemma get_cp_approx_monotone_and_bounded_witness :
  0 <= get_cp_approx kB_SI Na_SI aluminium 50 /\
  get_cp_approx kB_SI Na_SI aluminium 50 <= get_cp_approx kB_SI Na_SI aluminium 300 /\
  get_cp_approx kB_SI Na_SI aluminium 300 <= get_cp_high_T kB_SI Na_SI aluminium.
Proof.
  destruct aluminium_positive as (HTD & HM & Hn).
  apply (get_cp_approx_monotone_and_bounded kB_SI Na_SI kB_SI_pos Na_SI_pos
           aluminium 50 300); try assumption; lra.
Defined.

Lemma get_cp_approx_negative_temperature_witness :
  get_cp_approx kB_SI Na_SI aluminium (-1) = get_cp_low_T kB_SI Na_SI aluminium (-1) /\
  get_cp_low_T kB_SI Na_SI aluminium (-1) < 0 /\
  get_cp kB_SI Na_SI debye_3_unit forward_difference aluminium (-1) =
  Throw (CannotFindSpecificHeat (-1)).
Proof.
  destruct aluminium_positive as (HTD & HM & Hn).
  apply (get_cp_approx_negative_temperature kB_SI Na_SI debye_3_unit forward_difference
           kB_SI_pos Na_SI_pos aluminium (-1)); try assumption; lra.
Defined.


(** * Instances for the amended claims *)







